(** * Sample-rate conversion in the LiveAvatar / LiveKit examples

  A shallow embedding of the three resampling fragments of the repository:

  - [resample22To24]   (in-progress/slot-machine-agent/agent.ts),
  - [AudioResampler]   (not-working/bad-liveavatar-attempt/liveavatar-audio-output.ts),
  - the decimation loop of [LiveAvatarForwarder.forwardAudio].

  A JavaScript [number] is an IEEE-754 binary64 value, so numbers are
  embedded as Rocq's primitive [float]s: every arithmetic operation of the
  source is the same operation here, bit for bit.

  Around them, the code that feeds and uses the resamplers:

  - the slot machine tool and [LiveAvatarPipelineAgent.ttsNode] of agent.ts,
  - [LiveAvatarAudioOutput] ([captureFrame], [flush], [clearBuffer],
    [stop], [connectWebSocket], [convertToPCM16]),
  - [LiveAvatarForwarder] ([waitForAudioTrack], [forwardAudio],
    [onSpeechEnd], [onInterrupt], [stop]).

  What these classes pass to [ws.send] is kept as a trace of messages;
  Node's base64 encoding, which is not code of the repository, is a
  parameter. *)

From Stdlib Require Import ZArith List Bool Lia Floats Uint63.
From stdpp Require Import gmap.
From stdpp Require Import strings.
From Stdlib.Strings Require Byte.
From Stdlib Require Import Reals Lra.
Import ListNotations.

(** ** JavaScript numbers *)

Module JS.

Local Open Scope float_scope.

(** The number whose value is the integer [z] (exact for [|z| < 2^53]). *)
Definition of_Z (z : Z) : float :=
  if (z <? 0)%Z then - of_uint63 (Uint63.of_Z (- z))
  else of_uint63 (Uint63.of_Z z).

Definition of_nat (n : nat) : float := of_Z (Z.of_nat n).

(** The signed mantissa of a finite number [(-1)^s * m * 2^e]. *)
Definition signed (s : bool) (m : positive) : Z :=
  if s then Z.neg m else Z.pos m.

(** [Math.floor]. A finite number with a non-negative exponent is already
    integral; otherwise the mantissa is shifted right, which floors. *)
Definition Math_floor (x : float) : float :=
  match Prim2SF x with
  | S754_finite s m e =>
      if (0 <=? e)%Z then x else of_Z (Z.shiftl (signed s m) e)
  | _ => x
  end.

(** [Math.round]: the nearest integer, a tie going towards +infinity; a
    result of zero keeps the sign of the argument. *)
Definition Math_round (x : float) : float :=
  match Prim2SF x with
  | S754_finite s m e =>
      if (0 <=? e)%Z then x
      else
        let z := Z.shiftl (signed s m + 2 ^ (- e - 1))%Z e in
        if (z =? 0)%Z then (if s then neg_zero else zero) else of_Z z
  | _ => x
  end.

(** [Math.min] of two numbers: NaN is contagious and -0 is below +0. *)
Definition Math_min (a b : float) : float :=
  if is_nan a || is_nan b then nan
  else if a <? b then a
  else if b <? a then b
  else if get_sign a then a else b.

(** The integer value of an integral number, and [None] for every other
    number: the property key an array is read or written at. *)
Definition to_integer (k : float) : option Z :=
  match Prim2SF k with
  | S754_zero _ => Some 0%Z
  | S754_finite s m e =>
      if (0 <=? e)%Z then Some (Z.shiftl (signed s m) e)
      else if (Z.land (Z.pos m) (Z.ones (- e)) =? 0)%Z
           then Some (Z.shiftl (signed s m) e)
           else None
  | _ => None
  end.

Definition array_index (k : float) : option nat :=
  match to_integer k with
  | Some z => if (0 <=? z)%Z then Some (Z.to_nat z) else None
  | None => None
  end.

(** [a[k]] used as an operand of arithmetic, for [a : number[]]: an index
    outside the array reads [undefined], which arithmetic turns into NaN. *)
Definition get (a : list float) (k : float) : float :=
  match array_index k with
  | Some i => nth i a nan
  | None => nan
  end.

(** [a.length] as a number. *)
Definition length_of {A} (a : list A) : float := of_nat (length a).

(** The values [0, 1, ..., n - 1] a counter [i] takes in
    [for (let i = 0; i < n; i++)], for a bound [n] produced by
    [Math.floor]; each is an exact number as long as [n <= 2^53], which
    every array length is.  *)
Definition iterations (n : float) : nat :=
  match to_integer n with
  | Some z => Z.to_nat z
  | None => 0
  end.

Definition for_range {A} (n : float) (body : float -> A) : list A :=
  map (fun k => body (of_nat k)) (seq 0 (iterations n)).

End JS.

Import JS.

(** ** [resample22To24] (agent.ts, lines 70-89) *)

Section Resample22To24.

Local Open Scope float_scope.

Definition interpolate (samples : list float) (srcIndex : float) : float :=
  let srcIndexFloor := Math_floor srcIndex in
  let srcIndexCeil := Math_min (srcIndexFloor + 1) (length_of samples - 1) in
  let fraction := srcIndex - srcIndexFloor in
  let sample :=
    get samples srcIndexFloor * (1 - fraction)
    + get samples srcIndexCeil * fraction in
  Math_round sample.

Definition resample22To24 (samples : list float) : list float :=
  let inputRate := 22050 in
  let outputRate := 24000 in
  let ratio := outputRate / inputRate in
  let outputLength := Math_floor (length_of samples * ratio) in
  for_range outputLength (fun i => interpolate samples (i / ratio)).

End Resample22To24.

(** ** Typed arrays and PCM bytes *)

Module TypedArray.

(** Storing a number into an [Int16Array] element: NaN, the zeros and the
    infinities store 0; any other number is truncated towards zero and
    wrapped modulo 2^16 into the signed range. *)
Definition ToInt16 (x : float) : Z :=
  match Prim2SF x with
  | S754_finite s m e =>
      let t := Z.shiftl (Z.pos m) e in
      let w := ((if s then - t else t) mod 65536)%Z in
      if (32768 <=? w)%Z then (w - 65536)%Z else w
  | _ => 0%Z
  end.

(** [new Int16Array(numbers)]: every element goes through [ToInt16]. *)
Definition Int16Array_from (a : list float) : list Z := map ToInt16 a.

(** [a[k]] for [a : Int16Array], as an operand of arithmetic. *)
Definition Int16Array_get (a : list Z) (k : float) : float :=
  match array_index k with
  | Some i => match nth_error a i with Some z => of_Z z | None => nan end
  | None => nan
  end.

(** [Array.from(new Int16Array(data))]: the samples as numbers. *)
Definition Array_from (a : list Z) : list float := map of_Z a.

(** The length argument of [new Int16Array(n)]: NaN counts as 0, and a
    negative, infinite or too large length is a [RangeError] ([None]). *)
Definition ToIndex (n : float) : option nat :=
  match Prim2SF n with
  | S754_nan | S754_zero _ => Some 0%nat
  | S754_infinity _ => None
  | S754_finite s m e =>
      let t := Z.shiftl (Z.pos m) e in
      if s then (if (t =? 0)%Z then Some 0%nat else None)
      else if (t <=? 2 ^ 53 - 1)%Z then Some (Z.to_nat t) else None
  end.

Definition byte_of_Z (z : Z) : Byte.byte :=
  match Byte.of_N (Z.to_N (z mod 256)) with
  | Some b => b
  | None => Byte.x00
  end.

(** The two bytes of one 16-bit sample in the array's buffer, low byte
    first (the byte order of every platform Node.js runs on, and the order
    the comment in [convertToPCM16] asks for). *)
Definition int16_bytes (z : Z) : list Byte.byte :=
  [byte_of_Z z; byte_of_Z (z / 256)].

(** [new Uint8Array(a.buffer)] for [a : Int16Array] owning its buffer. *)
Definition buffer_bytes (a : list Z) : list Byte.byte := flat_map int16_bytes a.

(** Reading PCM bytes back as signed 16-bit little-endian samples. *)
Definition int16_of_bytes (lo hi : Byte.byte) : Z :=
  let u := (Z.of_N (Byte.to_N lo) + 256 * Z.of_N (Byte.to_N hi))%Z in
  if (32768 <=? u)%Z then (u - 65536)%Z else u.

Fixpoint s16le_samples (bytes : list Byte.byte) : list Z :=
  match bytes with
  | lo :: hi :: rest => int16_of_bytes lo hi :: s16le_samples rest
  | _ => []
  end.

End TypedArray.

Import TypedArray.

(** ** The slot machine tool (agent.ts, lines 43-66) *)

Module SlotMachine.

Local Open Scope string_scope.
Local Open Scope float_scope.

Definition PULLS_TO_WIN : float := 10.

(** [pullLever.execute] runs in two steps, with the 500 ms delay between
    them; other calls of the tool can run during the delay, and all of them
    share the module-level counter [pullCount].

    The step before the delay (line 51): [pullCount++]. *)
Definition begin_pull (pullCount : float) : float := pullCount + 1.

(** The step after the delay (lines 57-64): the reply, and the counter
    afterwards. *)
Definition end_pull (pullCount : float) : String.string * float :=
  if PULLS_TO_WIN <=? pullCount
  then ("Jackpot! You win!", 0)
  else ("Not done yet", pullCount).

(** What the event loop runs: the first step of a new call, or the second
    step of a call whose delay is over. *)
Inductive event := Call | Resume.

(** The replies, in the order they are given, and the counter in the end;
    [waiting] is the number of calls in their delay. A [Resume] with no
    call waiting cannot happen and does nothing. *)
Fixpoint run (events : list event) (pullCount : float) (waiting : nat)
  : list String.string * float :=
  match events with
  | [] => ([], pullCount)
  | Call :: rest => run rest (begin_pull pullCount) (S waiting)
  | Resume :: rest =>
      match waiting with
      | O => run rest pullCount O
      | S waiting' =>
          let (reply, c) := end_pull pullCount in
          let (replies, c') := run rest c waiting' in
          (reply :: replies, c')
      end
  end.

(** [n] calls one after the other: each is answered before the next one
    is made. *)
Definition one_by_one (n : nat) : list event :=
  concat (repeat [Call; Resume] n).

End SlotMachine.

(** ** Messages handed to [ws.send] *)

(** The object each example serialises with [JSON.stringify]:
    [{ type, event_id, audio? }]. *)
Record message := Message {
  type : String.string;
  event_id : String.string;
  audio : option String.string;
}.

(** A trace of messages keeps utterances apart when whatever directly
    follows an [agent.speak] message carries the same event id, be it more
    audio or the message that closes the utterance. *)
Definition same_utterance (trace : list message) : Prop :=
  forall pre m m' post,
    trace = pre ++ m :: m' :: post ->
    type m = "agent.speak" -> event_id m' = event_id m.

(** The id audio has to go on with: the id of the last message, if that
    was audio. *)
Definition continues_with (id : string) (trace : list message) : Prop :=
  forall pre m,
    trace = pre ++ [m] -> type m = "agent.speak" -> event_id m = id.

(** ** [LiveAvatarPipelineAgent.ttsNode] (agent.ts, lines 97-174) *)

Module TtsNode.

Section WithBase64.

(** Node's [Buffer.from(bytes).toString('base64')] is not code of the
    repository: it is a parameter. *)
Variable base64 : list Byte.byte -> string.

(** [audioBuffer.push(...samples)] passes every sample as an argument of
    its own, and the engine throws a [RangeError] when there are more than
    it accepts. The limit is the engine's, not the repository's:
    [spreadable n] tells whether a call with [n] arguments goes through. *)
Variable spreadable : nat -> bool.

(** The stream's local [audioBuffer], the messages passed to [ws.send] so
    far, and whether an exception has left the [try] block: there is no
    [catch], so after it only the [finally] block runs. *)
Record state := State {
  audioBuffer : list float;
  sent : list message;
  aborted : bool;
}.

(** [resample22To24], [new Int16Array(resampled)], base64 of its buffer,
    and the [agent.speak] message around it. *)
Definition speak_resampled (eventId : string) (chunk : list float) : message :=
  Message "agent.speak" eventId
    (Some (base64 (buffer_bytes (Int16Array_from (resample22To24 chunk))))).

(** The inner loop
    [while (audioBuffer.length >= 2400 && ws?.readyState === WebSocket.OPEN)];
    [open] is the value of the socket test, which no statement of the loop
    changes. Every turn removes 2400 samples, so [fuel] turns are enough
    when [fuel] is the length of the buffer. *)
Fixpoint drain (fuel : nat) (open : bool) (eventId : string) (st : state)
  : state :=
  match fuel with
  | O => st
  | S fuel' =>
      if (2400 <=? length (audioBuffer st))%nat && open then
        let chunk := firstn 2400 (audioBuffer st) in
        drain fuel' open eventId
          {| audioBuffer := skipn 2400 (audioBuffer st);
             sent := sent st ++ [speak_resampled eventId chunk];
             aborted := aborted st |}
      else st
  end.

(** One turn of the read loop for a value [frame] of the TTS stream:
    [data] is [frame?.data] ([None] when it is missing), [open] the state
    of the socket while the frame is processed. When the frame has more
    samples than [push] takes as arguments, the [RangeError] leaves the
    loop with the buffer and the socket as they were; no later frame is
    read. *)
Definition on_frame (eventId : string) (st : state)
    (read : option (list Z) * bool) : state :=
  let (data, open) := read in
  if aborted st then st else
  match data with
  | Some d =>
      let samples := Array_from d in
      if spreadable (length samples) then
        let buf := audioBuffer st ++ samples in
        drain (length buf) open eventId
          {| audioBuffer := buf; sent := sent st; aborted := false |}
      else
        {| audioBuffer := audioBuffer st; sent := sent st; aborted := true |}
  | None => st
  end.

(** After the stream is done: the remaining audio, if any. The statement
    is inside the [try] block, so it is skipped after an exception. *)
Definition finish (eventId : string) (open : bool) (st : state) : state :=
  if aborted st then st else
  if (0 <? length (audioBuffer st))%nat && open then
    {| audioBuffer := audioBuffer st;
       sent := sent st ++ [speak_resampled eventId (audioBuffer st)];
       aborted := false |}
  else st.

(** All of [ttsNode] for a TTS stream that yields [reads]: [open0] and
    [open_end] are the state of the socket ([true] for [WebSocket.OPEN])
    before the first read and after the last. The result is the list of
    messages sent. *)
Definition ttsNode (eventId : string) (open0 : bool)
    (reads : list (option (list Z) * bool)) (open_end : bool) : list message :=
  let started :=
    if open0 then [Message "agent.speak_started" eventId None] else [] in
  let st := fold_left (on_frame eventId) reads
              {| audioBuffer := []; sent := started; aborted := false |} in
  sent (finish eventId open_end st).

(** All the samples the TTS stream delivers, in order. *)
Definition samples_of (reads : list (option (list Z) * bool)) : list float :=
  flat_map (fun read => match fst read with
                        | Some d => Array_from d
                        | None => []
                        end) reads.

(** The frames whose samples [push] takes as arguments. *)
Definition spreads (read : option (list Z) * bool) : Prop :=
  match fst read with
  | Some d => spreadable (length d) = true
  | None => True
  end.

(** The invariant of the read loop: the messages sent so far are full
    chunks of a prefix of the samples the stream has delivered so far, the
    buffer holds what follows, and the rest, [lost], is what an exception
    has kept out of the buffer: nothing when there was none. *)
Definition chunked (eventId : string) (started : list message)
    (samples : list float) (st : state) : Prop :=
  exists (cs : list (list float)) (lost : list float),
    sent st = started ++ map (speak_resampled eventId) cs
    /\ concat cs ++ audioBuffer st ++ lost = samples
    /\ Forall (fun c => length c = 2400%nat) cs
    /\ (aborted st = false -> lost = []).

End WithBase64.

End TtsNode.

(** ** [AudioResampler] (liveavatar-audio-output.ts, lines 311-348) *)

(** [data] holds the elements of the [Int16Array] [frame.data], and
    [data_buffer] the bytes of [frame.data.buffer], the whole [ArrayBuffer]
    under it: an array that is a view ([subarray], or one made over a
    buffer with an offset and a length) shows a part of its buffer only. *)
Record AudioFrame := {
  data : list Z;
  data_buffer : list Byte.byte;
  sampleRate : float;
  channels : float;
  samplesPerChannel : float;
}.

(** The array of the frame is all of its buffer, as for every array made
    by [new Int16Array(length)] or [new Int16Array(numbers)]. *)
Definition owns_buffer (frame : AudioFrame) : Prop :=
  data_buffer frame = buffer_bytes (data frame).

(** The array of the frame starts [byteOffset] bytes into its buffer. *)
Definition view_at (byteOffset : nat) (frame : AudioFrame) : Prop :=
  firstn (2 * length (data frame)) (skipn byteOffset (data_buffer frame))
  = buffer_bytes (data frame).

Record AudioResampler := {
  inputRate : float;
  outputRate : float;
  ratio : float;
  buffer : list float;
}.

Definition new_AudioResampler (inputRate outputRate : float) : AudioResampler :=
  {| inputRate := inputRate; outputRate := outputRate;
     ratio := (inputRate / outputRate)%float; buffer := [] |}.

(** [push]; [None] is the [RangeError] of [new Int16Array]. The array of
    the new frame is made by [new Int16Array(outputSampleCount)], so its
    buffer holds its elements and nothing else. *)
Definition push (this : AudioResampler) (frame : AudioFrame)
  : option (list AudioFrame) :=
  if (sampleRate frame =? outputRate this)%float then Some [frame]
  else
    let inputSamples := data frame in
    let outputSampleCount :=
      Math_floor (length_of inputSamples / ratio this)%float in
    match ToIndex outputSampleCount with
    | None => None
    | Some _ =>
        let outputData :=
          for_range outputSampleCount (fun i =>
            let inputIndex := (i * ratio this)%float in
            let index0 := Math_floor inputIndex in
            let index1 :=
              Math_min (index0 + 1)%float (length_of inputSamples - 1)%float in
            let fraction := (inputIndex - index0)%float in
            ToInt16 (Math_round
              (Int16Array_get inputSamples index0 * (1 - fraction)
               + Int16Array_get inputSamples index1 * fraction)%float)) in
        Some [ {| data := outputData;
                  data_buffer := buffer_bytes outputData;
                  sampleRate := outputRate this;
                  channels := channels frame;
                  samplesPerChannel :=
                    (outputSampleCount / channels frame)%float |} ]
    end.

(** ** [LiveAvatarAudioOutput] (liveavatar-audio-output.ts, lines 35-306) *)

Module LiveAvatarAudioOutput.

Section WithBase64.

Variable base64 : list Byte.byte -> string.

Definition SAMPLE_RATE : float := 24000.

(** The fields the audio path reads and writes, and the messages passed
    to [ws.send] so far. [ws] is [Some] while the field holds a socket. *)
Record state := State {
  ws : option string;
  wsUrl : option string;
  isConnected : bool;
  eventId : string;
  audioResampler : option AudioResampler;
  sent : list message;
}.

(** [new Uint8Array(frame.data.buffer)]: all the bytes of the buffer
    under the array, also those outside the array. *)
Definition convertToPCM16 (frame : AudioFrame) : list Byte.byte :=
  data_buffer frame.

Definition ws_send (m : message) (st : state) : state :=
  {| ws := ws st; wsUrl := wsUrl st; isConnected := isConnected st;
     eventId := eventId st; audioResampler := audioResampler st;
     sent := sent st ++ [m] |}.

Definition set_eventId (id : string) (st : state) : state :=
  {| ws := ws st; wsUrl := wsUrl st; isConnected := isConnected st;
     eventId := id; audioResampler := audioResampler st; sent := sent st |}.

Definition set_isConnected (b : bool) (st : state) : state :=
  {| ws := ws st; wsUrl := wsUrl st; isConnected := b;
     eventId := eventId st; audioResampler := audioResampler st;
     sent := sent st |}.

(** [this.isConnected && this.ws] *)
Definition connected (st : state) : bool :=
  isConnected st && bool_decide (is_Some (ws st)).

(** [captureFrame], after [super.captureFrame]. An exception of [push] is
    caught and logged: nothing is sent. *)
Definition captureFrame (frame : AudioFrame) (st : state) : state :=
  if negb (connected st) then st
  else
    let resampledFrames :=
      match audioResampler st with
      | Some r => push r frame
      | None => Some [frame]
      end in
    match resampledFrames with
    | None => st
    | Some frames =>
        fold_left
          (fun st resampledFrame =>
             ws_send (Message "agent.speak" (eventId st)
                        (Some (base64 (convertToPCM16 resampledFrame)))) st)
          frames st
    end.

(** [flush], after [super.flush]; [newId] is what [generateEventId] returns
    if it is called. *)
Definition flush (newId : string) (st : state) : state :=
  if connected st then
    set_eventId newId (ws_send (Message "agent.speak_end" (eventId st) None) st)
  else st.

Definition clearBuffer (newId : string) (st : state) : state :=
  if connected st then
    set_eventId newId (ws_send (Message "agent.interrupt" (eventId st) None) st)
  else st.

(** The synchronous part of [stop]: the socket is closed and forgotten. *)
Definition stop (st : state) : state :=
  {| ws := None; wsUrl := wsUrl st; isConnected := isConnected st;
     eventId := eventId st; audioResampler := audioResampler st;
     sent := sent st |}.

(** [connectWebSocket] up to the registration of the handlers; without a
    URL the promise is rejected and nothing changes. *)
Definition connectWebSocket (st : state) : state :=
  match wsUrl st with
  | None => st
  | Some url =>
      {| ws := Some url; wsUrl := wsUrl st; isConnected := isConnected st;
         eventId := eventId st; audioResampler := audioResampler st;
         sent := sent st |}
  end.

(** Step 6 of [start]. *)
Definition init_resampler (st : state) : state :=
  {| ws := ws st; wsUrl := wsUrl st; isConnected := isConnected st;
     eventId := eventId st;
     audioResampler := Some (new_AudioResampler 48000 SAMPLE_RATE);
     sent := sent st |}.

(** Whatever can happen to a [LiveAvatarAudioOutput] once it is built:
    calls of its methods and events of its socket. *)
Inductive op :=
| CaptureFrame (frame : AudioFrame)
| Flush (newId : string)
| ClearBuffer (newId : string)
| Stop
| ConnectWebSocket
| InitResampler
| OnOpen
| OnError
| OnClose.

Definition step (st : state) (o : op) : state :=
  match o with
  | CaptureFrame frame => captureFrame frame st
  | Flush newId => flush newId st
  | ClearBuffer newId => clearBuffer newId st
  | Stop => stop st
  | ConnectWebSocket => connectWebSocket st
  | InitResampler => init_resampler st
  | OnOpen => set_isConnected true st
  | OnError | OnClose => set_isConnected false st
  end.

Definition run (st : state) (ops : list op) : state := fold_left step ops st.

(** What the sending methods keep true of the trace and the current id. *)
Definition tidy (st : state) : Prop :=
  same_utterance (sent st) /\ continues_with (eventId st) (sent st).

End WithBase64.

End LiveAvatarAudioOutput.

(** ** [LiveAvatarForwarder] *)

Module LiveAvatarForwarder.

Section WithBase64.

Variable base64 : list Byte.byte -> string.

(** The track the agent publishes, as [waitForAudioTrack] sees it. *)
Variable AudioTrack : Type.

(** [waitForAudioTrack]: [poll k] is the audio track found among the
    participant's publications at the check of attempt [k], if any. The
    loop makes at most [maxAttempts] checks and sleeps [retryDelay] ms
    after each failed one. The result is the track found and the number of
    sleeps, or the message of the error thrown. *)
Definition maxAttempts : nat := 100.

Fixpoint poll_loop (poll : nat -> option AudioTrack) (fuel attempt : nat)
  : option AudioTrack * nat :=
  match fuel with
  | O => (None, attempt)
  | S fuel' =>
      match poll attempt with
      | Some track => (Some track, attempt)
      | None => poll_loop poll fuel' (S attempt)
      end
  end.

Definition waitForAudioTrack (poll : nat -> option AudioTrack)
  : (AudioTrack + string) * nat :=
  match poll_loop poll maxAttempts 0 with
  | (Some track, sleeps) => (inl track, sleeps)
  | (None, sleeps) =>
      (inr "No audio track found from agent after 10000ms timeout", sleeps)
  end.

Record state := State {
  ws : option string;
  wsUrl : option string;
  isConnected : bool;
  eventId : string;
  sent : list message;
}.

Definition ws_send (m : message) (st : state) : state :=
  {| ws := ws st; wsUrl := wsUrl st; isConnected := isConnected st;
     eventId := eventId st; sent := sent st ++ [m] |}.

Definition set_eventId (id : string) (st : state) : state :=
  {| ws := ws st; wsUrl := wsUrl st; isConnected := isConnected st;
     eventId := id; sent := sent st |}.

Definition set_isConnected (b : bool) (st : state) : state :=
  {| ws := ws st; wsUrl := wsUrl st; isConnected := b;
     eventId := eventId st; sent := sent st |}.

Definition connected (st : state) : bool :=
  isConnected st && bool_decide (is_Some (ws st)).

(** The downsampling of [forwardAudio] (lines 257-264): every second
    sample of the frame. *)
Definition downsample (inputData : list Z) : list Z :=
  let resampleRatio := 2%float in
  let outputLength := Math_floor (length_of inputData / resampleRatio)%float in
  for_range outputLength (fun i =>
    ToInt16 (Int16Array_get inputData (i * resampleRatio)%float)).

(** One turn of the [for await] loop of [forwardAudio]. *)
Definition forward_frame (audioFrame : AudioFrame) (st : state) : state :=
  if negb (connected st) then st
  else
    ws_send (Message "agent.speak" (eventId st)
               (Some (base64 (buffer_bytes (downsample (data audioFrame)))))) st.

Definition onSpeechEnd (newId : string) (st : state) : state :=
  if connected st then
    set_eventId newId (ws_send (Message "agent.speak_end" (eventId st) None) st)
  else st.

Definition onInterrupt (newId : string) (st : state) : state :=
  if connected st then
    set_eventId newId (ws_send (Message "agent.interrupt" (eventId st) None) st)
  else st.

Definition stop (st : state) : state :=
  {| ws := None; wsUrl := wsUrl st; isConnected := isConnected st;
     eventId := eventId st; sent := sent st |}.

Definition connectWebSocket (st : state) : state :=
  match wsUrl st with
  | None => st
  | Some url =>
      {| ws := Some url; wsUrl := wsUrl st; isConnected := isConnected st;
         eventId := eventId st; sent := sent st |}
  end.

Inductive op :=
| ForwardFrame (audioFrame : AudioFrame)
| OnSpeechEnd (newId : string)
| OnInterrupt (newId : string)
| Stop
| ConnectWebSocket
| OnOpen
| OnError
| OnClose.

Definition step (st : state) (o : op) : state :=
  match o with
  | ForwardFrame audioFrame => forward_frame audioFrame st
  | OnSpeechEnd newId => onSpeechEnd newId st
  | OnInterrupt newId => onInterrupt newId st
  | Stop => stop st
  | ConnectWebSocket => connectWebSocket st
  | OnOpen => set_isConnected true st
  | OnError | OnClose => set_isConnected false st
  end.

Definition run (st : state) (ops : list op) : state := fold_left step ops st.

(** What the sending methods keep true of the trace and the current id. *)
Definition tidy (st : state) : Prop :=
  same_utterance (sent st) /\ continues_with (eventId st) (sent st).

End WithBase64.

End LiveAvatarForwarder.

(** ** Numbers as reals

    The value of a number, for the proofs: a finite binary64 number is
    [(-1)^s * m * 2^e]. *)

Module Value.

Definition bpow (e : Z) : R := powerRZ 2 e.

Definition F2R (m e : Z) : R := (IZR m * bpow e)%R.

Definition SF2R (x : spec_float) : R :=
  match x with
  | S754_finite s m e => F2R (if s then Z.neg m else Z.pos m) e
  | _ => 0%R
  end.

Definition B2R (x : float) : R := SF2R (Prim2SF x).

Definition finite (x : float) : Prop :=
  match Prim2SF x with
  | S754_zero _ | S754_finite _ _ _ => True
  | _ => False
  end.

(** A value of the format, given by one of its representations. *)
Definition representable (v : R) : Prop :=
  exists k g : Z, v = F2R k g /\ (Z.abs k < 2 ^ 53)%Z /\ (-1074 <= g <= 900)%Z.

(** What a comparison says about two values. *)
Definition agrees (c : comparison) (a b : R) : Prop :=
  match c with
  | Lt => (a < b)%R
  | Eq => a = b
  | Gt => (b < a)%R
  end.

End Value.

Import Value.

(** C3 (as the code has it). The input [0, 100, 200, 300] resamples to the
  four samples [0, 92, 184, 276]: the output has length 4 and starts with
  0, and its last sample is 276, the interpolation at source position
  3 * 22050 / 24000 = 2.75625 between 200 and 300. *)
Theorem resample22To24_concrete :
resample22To24 [0; 100; 200; 300]%float = [0; 92; 184; 276]%float.
Proof. vm_compute. reflexivity. Qed.

(** C3 (as the spec has it) fails on the last sample. The output for
    [0, 100, 200, 300] has length 4 and starts with 0, but it does not end
    near 300: its last sample, 276, is not within rounding of 300, and not
    within 23 of it either. *)
Lemma resample22To24_last_sample_far_from_300 :
  let output := resample22To24 [0; 100; 200; 300]%float in
  ~ (length output = 4%nat
     /\ (nth 0 output nan =? 0)%float = true
     /\ ((300 - 23 <=? nth 3 output nan)
         && (nth 3 output nan <=? 300 + 23))%float = true).
Proof. cbv zeta. intros (_ & _ & H). vm_compute in H. discriminate. Qed.


(** ** The slot machine *)

Section SlotMachineFacts.

Import SlotMachine.

Local Open Scope string_scope.

(** What a call that runs alone does when the counter holds a number of
    pulls below ten. *)
Lemma pull_below_ten (c : nat) :
  (c < 10)%nat ->
  end_pull (begin_pull (of_nat c)) =
    (if (S c mod 10 =? 0)%nat then "Jackpot! You win!" else "Not done yet",
     of_nat (S c mod 10)).
Proof.
  intros Hc.
  do 10 (destruct c as [|c]; [vm_compute; reflexivity|]).
  lia.
Qed.

Lemma one_by_one_from (n : nat) : forall c : nat,
  (c < 10)%nat ->
  run (one_by_one n) (of_nat c) 0 =
    (map (fun k => if ((c + S k) mod 10 =? 0)%nat
                   then "Jackpot! You win!" else "Not done yet") (seq 0 n),
     of_nat ((c + n) mod 10)).
Proof.
  induction n as [|n IH]; intros c Hc.
  - cbn [one_by_one repeat concat run seq map].
    rewrite Nat.add_0_r, Nat.mod_small by assumption. reflexivity.
  - change (one_by_one (S n)) with (Call :: Resume :: one_by_one n).
    cbn [run]. rewrite pull_below_ten by assumption.
    assert (Hlt : (S c mod 10 < 10)%nat) by (apply Nat.mod_upper_bound; lia).
    rewrite (IH _ Hlt).
    cbn [seq map]. rewrite <- seq_shift, map_map.
    replace (c + 1)%nat with (S c) by lia.
    f_equal.
    + f_equal. apply map_ext. intros k.
      replace ((S c mod 10 + S k) mod 10)%nat with ((c + S (S k)) mod 10)%nat;
        [reflexivity|].
      rewrite Nat.Div0.add_mod_idemp_l. f_equal. lia.
    + f_equal. rewrite Nat.Div0.add_mod_idemp_l. f_equal. lia.
Qed.

(** X1. When the calls of the tool do not overlap (each call is answered
    before the next one is made), then starting from a fresh counter the
    [k]-th call answers "Jackpot! You win!" exactly when [k] is a multiple
    of ten and "Not done yet" otherwise, and after [n] calls the counter
    holds [n mod 10]: the game needs exactly ten pulls and starts over
    after each win. *)
Theorem pulls_jackpot_every_tenth (n : nat) :
  run (one_by_one n) 0%float 0 =
    (map (fun k => if (S k mod 10 =? 0)%nat
                   then "Jackpot! You win!" else "Not done yet") (seq 0 n),
     of_nat (n mod 10)).
Proof.
  change 0%float with (of_nat 0).
  rewrite (one_by_one_from n 0) by lia.
  reflexivity.
Qed.

(** Calls that overlap are another matter: of ten calls that are all made
    before the first is answered, the first to resume wins and resets the
    counter, and the nine others are told to go on. *)
Example ten_overlapping_pulls :
  run (repeat Call 10 ++ repeat Resume 10) 0%float 0
  = ("Jackpot! You win!" :: repeat "Not done yet" 9, 0%float).
Proof. vm_compute. reflexivity. Qed.

End SlotMachineFacts.

(** ** Waiting for the agent's audio track *)

Section WaitForAudioTrack.

Import LiveAvatarForwarder.

Context {AudioTrack : Type}.

Lemma poll_loop_spec (poll : nat -> option AudioTrack) (fuel : nat) :
  forall attempt : nat,
  match poll_loop AudioTrack poll fuel attempt with
  | (Some track, k) =>
      (attempt <= k < attempt + fuel)%nat /\ poll k = Some track
      /\ forall j, (attempt <= j < k)%nat -> poll j = None
  | (None, k) =>
      k = (attempt + fuel)%nat
      /\ forall j, (attempt <= j < attempt + fuel)%nat -> poll j = None
  end.
Proof.
  induction fuel as [|fuel IH]; intros attempt; cbn [poll_loop].
  - split; [lia|]. intros j Hj. lia.
  - destruct (poll attempt) as [track|] eqn:Hp.
    + split; [lia|]. split; [assumption|]. intros j Hj. lia.
    + specialize (IH (S attempt)).
      destruct (poll_loop AudioTrack poll fuel (S attempt)) as [[track|] k].
      * destruct IH as (Hk & Hfound & Hbefore).
        split; [lia|]. split; [assumption|].
        intros j Hj. destruct (Nat.eq_dec j attempt) as [->|Hne];
          [assumption|apply Hbefore; lia].
      * destruct IH as (Hk & Hnone).
        split; [lia|].
        intros j Hj. destruct (Nat.eq_dec j attempt) as [->|Hne];
          [assumption|apply Hnone; lia].
Qed.

(** X2. [waitForAudioTrack] checks the participant's publications at most
    100 times. It returns the track of the first check that finds one,
    after sleeping once for every earlier check; it throws "No audio track
    found from agent after 10000ms timeout" exactly when all 100 checks find
    none, after 100 sleeps. *)
Theorem waitForAudioTrack_first_found (poll : nat -> option AudioTrack) :
  match waitForAudioTrack AudioTrack poll with
  | (inl track, sleeps) =>
      (sleeps < 100)%nat /\ poll sleeps = Some track
      /\ forall j, (j < sleeps)%nat -> poll j = None
  | (inr error, sleeps) =>
      sleeps = 100%nat
      /\ error = "No audio track found from agent after 10000ms timeout"%string
      /\ forall j, (j < 100)%nat -> poll j = None
  end.
Proof.
  unfold waitForAudioTrack.
  pose proof (poll_loop_spec poll maxAttempts 0) as H.
  destruct (poll_loop AudioTrack poll maxAttempts 0) as [[track|] k].
  - destruct H as (Hk & Hfound & Hbefore). unfold maxAttempts in Hk.
    split; [lia|]. split; [assumption|].
    intros j Hj. apply Hbefore. lia.
  - destruct H as (Hk & Hnone). unfold maxAttempts in *.
    split; [lia|]. split; [reflexivity|].
    intros j Hj. apply Hnone. lia.
Qed.

End WaitForAudioTrack.

(** ** The chunking of [ttsNode] *)

Section TtsNodeFacts.

Import TtsNode.

Variable base64 : list Byte.byte -> string.
Variable spreadable : nat -> bool.
Variable eventId : string.

Lemma aborted_drain (open : bool) (fuel : nat) : forall st,
  aborted (drain base64 fuel open eventId st) = aborted st.
Proof.
  induction fuel as [|fuel IH]; intros st; cbn [drain]; [reflexivity|].
  destruct (_ && _); [|reflexivity]. rewrite IH. reflexivity.
Qed.

Lemma drain_chunked (open : bool) (started : list message) (samples : list float)
    (fuel : nat) : forall st,
  chunked base64 eventId started samples st ->
  chunked base64 eventId started samples (drain base64 fuel open eventId st).
Proof.
  induction fuel as [|fuel IH]; intros st Hst; cbn [drain]; [assumption|].
  destruct (Nat.leb_spec 2400 (length (audioBuffer st))) as [Hlen|Hlen];
    cbn [andb]; [|assumption].
  destruct open; [|assumption].
  apply IH. destruct Hst as (cs & lost & Hsent & Hcat & Hfull & Hlost).
  exists (cs ++ [firstn 2400 (audioBuffer st)]), lost.
  cbn [audioBuffer sent aborted]. split; [|split; [|split]].
  - rewrite Hsent, map_app, app_assoc. reflexivity.
  - rewrite concat_app. cbn [concat]. rewrite app_nil_r, <- app_assoc.
    rewrite (app_assoc (firstn _ _)), firstn_skipn. assumption.
  - apply Forall_app. split; [assumption|].
    constructor; [|constructor]. rewrite length_firstn. lia.
  - assumption.
Qed.

Lemma on_frame_chunked (started : list message) (samples : list float)
    (st : state) (read : option (list Z) * bool) :
  chunked base64 eventId started samples st ->
  chunked base64 eventId started (samples ++ samples_of [read])
    (on_frame base64 spreadable eventId st read).
Proof.
  intros Hst.
  destruct read as [[d|] open]; cbn [on_frame samples_of flat_map fst];
    rewrite !app_nil_r; [|destruct (aborted st); assumption].
  destruct Hst as (cs & lost & Hsent & Hcat & Hfull & Hlost).
  destruct (aborted st) eqn:Hab.
  - exists cs, (lost ++ Array_from d). rewrite Hab.
    split; [assumption|]. split; [|split; [assumption|discriminate]].
    rewrite <- Hcat, <- !app_assoc. reflexivity.
  - rewrite (Hlost eq_refl), app_nil_r in Hcat.
    destruct (spreadable (length (Array_from d))).
    + apply drain_chunked. exists cs, [].
      cbn [audioBuffer sent aborted]. split; [assumption|].
      split; [|split; [assumption|reflexivity]].
      rewrite app_nil_r, app_assoc, Hcat. reflexivity.
    + exists cs, (Array_from d).
      cbn [audioBuffer sent aborted]. split; [assumption|].
      split; [|split; [assumption|discriminate]].
      rewrite app_assoc, Hcat. reflexivity.
Qed.

Lemma samples_of_cons (read : option (list Z) * bool)
    (reads : list (option (list Z) * bool)) :
  samples_of (read :: reads) = samples_of [read] ++ samples_of reads.
Proof. cbn [samples_of flat_map]. rewrite app_nil_r. reflexivity. Qed.

Lemma reads_chunked (started : list message)
    (reads : list (option (list Z) * bool)) : forall samples st,
  chunked base64 eventId started samples st ->
  chunked base64 eventId started (samples ++ samples_of reads)
    (fold_left (on_frame base64 spreadable eventId) reads st).
Proof.
  induction reads as [|read reads IH]; intros samples st Hst; cbn [fold_left].
  - cbn [samples_of flat_map]. rewrite app_nil_r. assumption.
  - rewrite samples_of_cons, app_assoc. apply IH, on_frame_chunked, Hst.
Qed.

(** No exception leaves the loop when [push] takes the samples of every
    frame. *)
Lemma on_frame_not_aborted (st : state) (read : option (list Z) * bool) :
  spreads spreadable read -> aborted st = false ->
  aborted (on_frame base64 spreadable eventId st read) = false.
Proof.
  unfold spreads. destruct read as [[d|] open]; cbn [on_frame fst];
    intros Hread Hst; rewrite Hst; [|assumption].
  unfold Array_from. rewrite length_map, Hread, aborted_drain. reflexivity.
Qed.

Lemma reads_not_aborted (reads : list (option (list Z) * bool)) : forall st,
  Forall (spreads spreadable) reads -> aborted st = false ->
  aborted (fold_left (on_frame base64 spreadable eventId) reads st) = false.
Proof.
  induction reads as [|read reads IH]; intros st Hreads Hst; cbn [fold_left];
    [assumption|].
  apply Forall_cons_1 in Hreads. destruct Hreads as [Hread Hreads].
  apply IH; [assumption|]. apply on_frame_not_aborted; assumption.
Qed.

Lemma ttsNode_chunks (open0 : bool)
    (reads : list (option (list Z) * bool)) (open_end : bool) :
  exists (cs : list (list float)) (unsent : list float),
    ttsNode base64 spreadable eventId open0 reads open_end =
      (if open0 then [Message "agent.speak_started" eventId None] else [])
      ++ map (speak_resampled base64 eventId) cs
    /\ concat cs ++ unsent = samples_of reads
    /\ (open_end = true -> Forall (spreads spreadable) reads -> unsent = [])
    /\ Forall (fun c => c <> []) cs
    /\ (forall i c, nth_error cs i = Some c -> (S i < length cs)%nat ->
        length c = 2400%nat).
Proof.
  unfold ttsNode.
  set (started := if open0 then _ else _).
  assert (H0 : chunked base64 eventId started [] (State [] started false)).
  { exists [], []. cbn. rewrite app_nil_r. auto. }
  pose proof (reads_chunked started reads [] _ H0) as H. cbn [app] in H.
  set (st := fold_left _ _ _) in *.
  assert (Hrun : Forall (spreads spreadable) reads -> aborted st = false).
  { intros Hreads. apply reads_not_aborted; [assumption|reflexivity]. }
  destruct H as (cs & lost & Hsent & Hcat & Hfull & Hlost).
  assert (Hne : Forall (fun c : list float => c <> []) cs).
  { eapply Forall_impl; [exact Hfull|]. cbn. intros c Hc ->. cbn in Hc. lia. }
  assert (Hall : forall i c, nth_error cs i = Some c -> length c = 2400%nat).
  { intros i c Hi. rewrite List.Forall_forall in Hfull. apply Hfull.
    eapply nth_error_In, Hi. }
  unfold finish. destruct (aborted st) eqn:Hab.
  { exists cs, (audioBuffer st ++ lost).
    split; [assumption|]. split; [assumption|].
    split; [intros _ Hreads; apply Hrun in Hreads; congruence|].
    split; [assumption|]. intros i c Hi _. eapply Hall, Hi. }
  rewrite (Hlost eq_refl), app_nil_r in Hcat.
  destruct (Nat.ltb_spec 0 (length (audioBuffer st))) as [Hpos|Hzero];
    cbn [andb].
  - destruct open_end; cbn [sent].
    + exists (cs ++ [audioBuffer st]), [].
      split; [rewrite Hsent, map_app, app_assoc; reflexivity|].
      split; [rewrite concat_app; cbn [concat]; rewrite !app_nil_r; assumption|].
      split; [reflexivity|].
      split.
      * apply Forall_app. split; [assumption|].
        constructor; [|constructor]. intros E. rewrite E in Hpos. cbn in Hpos. lia.
      * intros i c Hi Hlt. rewrite length_app in Hlt. cbn [length] in Hlt.
        rewrite nth_error_app1 in Hi by lia. eapply Hall, Hi.
    + exists cs, (audioBuffer st).
      split; [assumption|]. split; [assumption|].
      split; [discriminate|]. split; [assumption|].
      intros i c Hi _. eapply Hall, Hi.
  - exists cs, [].
    assert (Hnil : audioBuffer st = []).
    { destruct (audioBuffer st); [reflexivity|cbn in Hzero; lia]. }
    rewrite Hnil in Hcat.
    split; [assumption|]. split; [assumption|].
    split; [reflexivity|]. split; [assumption|].
    intros i c Hi _. eapply Hall, Hi.
Qed.

(** X3. Whatever the frames are and whenever the socket is open, [ttsNode]
    sends, after the optional [agent.speak_started], the [agent.speak]
    messages of consecutive chunks of the audio the stream delivers:
    nothing is duplicated or reordered, every chunk is non-empty, and
    every chunk but the last has exactly 2400 samples. Nothing is left
    unsent if the socket is open at the end of the stream and no frame is
    too large for [audioBuffer.push(...samples)]; a frame that is raises
    a [RangeError] which ends the stream there, and what is sent is still
    a prefix of the audio, in chunks of 2400. *)
Theorem ttsNode_sends_consecutive_chunks (open0 : bool)
    (reads : list (option (list Z) * bool)) (open_end : bool) :
  exists (cs : list (list float)) (unsent : list float),
    ttsNode base64 spreadable eventId open0 reads open_end =
      (if open0 then [Message "agent.speak_started" eventId None] else [])
      ++ map (speak_resampled base64 eventId) cs
    /\ concat cs ++ unsent = samples_of reads
    /\ (open_end = true -> Forall (spreads spreadable) reads -> unsent = [])
    /\ Forall (fun c => c <> []) cs
    /\ (forall i c, nth_error cs i = Some c -> (S i < length cs)%nat ->
        length c = 2400%nat).
Proof. apply ttsNode_chunks. Qed.

(** X4. Every message of [ttsNode] carries the one event id drawn at the
    start, and none of them is [agent.speak_end]: the end of the utterance
    is never announced on the socket. *)
Theorem ttsNode_one_event_id_no_end (open0 : bool)
    (reads : list (option (list Z) * bool)) (open_end : bool) (m : message) :
  In m (ttsNode base64 spreadable eventId open0 reads open_end) ->
  event_id m = eventId
  /\ (type m = "agent.speak_started" \/ type m = "agent.speak")
  /\ type m <> "agent.speak_end".
Proof.
  destruct (ttsNode_chunks open0 reads open_end) as (cs & unsent & -> & _).
  intros Hm. apply in_app_or in Hm. destruct Hm as [Hm|Hm].
  - destruct open0; [|destruct Hm].
    destruct Hm as [<-|[]]. cbn. repeat split; [left; reflexivity|discriminate].
  - apply in_map_iff in Hm. destruct Hm as (c & <- & _).
    cbn. repeat split; [right; reflexivity|discriminate].
Qed.

(** A frame too large for [push] ends the stream: the audio before it
    goes out in full chunks only, and neither the rest of the buffer nor
    any later frame is sent, although the socket is open throughout. *)
Lemma ttsNode_range_error (before after : list (option (list Z) * bool))
    (d : list Z) (open : bool) (open_end : bool) :
  Forall (spreads spreadable) before ->
  spreadable (length d) = false ->
  ttsNode base64 spreadable eventId true
    (before ++ (Some d, open) :: after) open_end
  = sent (fold_left (on_frame base64 spreadable eventId) before
            (State [] [Message "agent.speak_started" eventId None] false)).
Proof.
  intros Hbefore Hd. unfold ttsNode. rewrite fold_left_app. cbn [fold_left].
  pose proof (reads_not_aborted before
                (State [] [Message "agent.speak_started" eventId None] false)
                Hbefore eq_refl) as Hrun.
  set (st := fold_left _ before _) in *.
  assert (Hstop : on_frame base64 spreadable eventId st (Some d, open)
                  = State (audioBuffer st) (sent st) true).
  { cbn [on_frame]. rewrite Hrun. unfold Array_from. rewrite length_map, Hd.
    reflexivity. }
  rewrite Hstop.
  assert (Hrest : forall rest st', aborted st' = true ->
            fold_left (on_frame base64 spreadable eventId) rest st' = st').
  { induction rest as [|[data o] rest IH]; intros st' Hst'; cbn [fold_left];
      [reflexivity|].
    cbn [on_frame]. rewrite Hst'. apply IH, Hst'. }
  rewrite Hrest by reflexivity. reflexivity.
Qed.

(** *** While the socket stays open *)

(** The [k]-th block of 2400 samples of [samples]. *)
Lemma block_app (samples more : list float) (k : nat) :
  (2400 * S k <= length samples)%nat ->
  firstn 2400 (skipn (2400 * k) (samples ++ more))
  = firstn 2400 (skipn (2400 * k) samples).
Proof.
  intros Hk.
  rewrite skipn_app, firstn_app, length_skipn.
  replace (2400 - (length samples - 2400 * k))%nat with 0%nat by lia.
  rewrite firstn_O, app_nil_r. reflexivity.
Qed.

Lemma drain_blocks (samples : list float) (fuel : nat) : forall (q : nat) st,
  (2400 * q <= length samples)%nat ->
  audioBuffer st = skipn (2400 * q) samples ->
  (length samples - 2400 * q <= fuel)%nat ->
  sent (drain base64 fuel true eventId st)
  = sent st
    ++ map (fun k => speak_resampled base64 eventId
                       (firstn 2400 (skipn (2400 * k) samples)))
         (seq q (length samples / 2400 - q))
  /\ audioBuffer (drain base64 fuel true eventId st)
     = skipn (2400 * (length samples / 2400)) samples.
Proof.
  induction fuel as [|fuel IH]; intros q st Hq Hbuf Hfuel.
  - assert (Hlen : length samples = (2400 * q)%nat) by lia.
    assert (Hdiv : (length samples / 2400 = q)%nat).
    { rewrite Hlen, Nat.mul_comm. apply Nat.div_mul. lia. }
    cbn [drain]. rewrite Hdiv, Nat.sub_diag. cbn [seq map].
    rewrite app_nil_r. split; [reflexivity|assumption].
  - cbn [drain]. rewrite andb_true_r.
    destruct (Nat.leb_spec 2400 (length (audioBuffer st))) as [Hlen|Hlen];
      rewrite Hbuf, length_skipn in Hlen.
    + assert (Hq' : (S q <= length samples / 2400)%nat).
      { apply Nat.div_le_lower_bound; lia. }
      destruct (IH (S q)
                  {| audioBuffer := skipn 2400 (audioBuffer st);
                     sent := sent st
                             ++ [speak_resampled base64 eventId
                                   (firstn 2400 (audioBuffer st))];
                     aborted := aborted st |})
        as [Hs Hb].
      * lia.
      * cbn [audioBuffer]. rewrite Hbuf, skipn_skipn. f_equal. lia.
      * lia.
      * split; [|exact Hb].
        rewrite Hs. cbn [sent]. rewrite <- app_assoc. f_equal.
        replace (length samples / 2400 - q)%nat
          with (S (length samples / 2400 - S q)) by lia.
        cbn [seq map app]. rewrite Hbuf. reflexivity.
    + assert (Hdiv : (length samples / 2400 = q)%nat).
      { symmetry. apply (Nat.div_unique _ _ _ (length samples - 2400 * q)); lia. }
      rewrite Hdiv, Nat.sub_diag. cbn [seq map]. rewrite app_nil_r.
      split; [reflexivity|assumption].
Qed.

Lemma reads_blocks (started : list message)
    (reads : list (option (list Z) * bool)) : forall samples st,
  Forall (fun read => snd read = true) reads ->
  Forall (spreads spreadable) reads ->
  aborted st = false ->
  sent st = started
            ++ map (fun k => speak_resampled base64 eventId
                               (firstn 2400 (skipn (2400 * k) samples)))
                 (seq 0 (length samples / 2400)) ->
  audioBuffer st = skipn (2400 * (length samples / 2400)) samples ->
  let all := samples ++ samples_of reads in
  let st' := fold_left (on_frame base64 spreadable eventId) reads st in
  sent st' = started
             ++ map (fun k => speak_resampled base64 eventId
                                (firstn 2400 (skipn (2400 * k) all)))
                  (seq 0 (length all / 2400))
  /\ audioBuffer st' = skipn (2400 * (length all / 2400)) all.
Proof.
  induction reads as [|read reads IH];
    intros samples st Hopen Hreads Hab Hsent Hbuf; cbn [fold_left].
  - cbn [samples_of flat_map]. cbn zeta. rewrite app_nil_r. auto.
  - cbn zeta. rewrite samples_of_cons, app_assoc.
    apply Forall_cons_1 in Hopen. destruct Hopen as [Hread Hopen].
    apply Forall_cons_1 in Hreads. destruct Hreads as [Hspread Hreads].
    apply IH; [assumption|assumption|apply on_frame_not_aborted; assumption| |];
      clear IH;
      destruct read as [[d|] open]; cbn [snd] in Hread; subst open;
      unfold spreads in Hspread; cbn [fst] in Hspread;
      cbn [on_frame samples_of flat_map fst]; rewrite Hab, ?app_nil_r;
      try assumption.
    all: replace (spreadable (length (Array_from d))) with true
           by (unfold Array_from; rewrite length_map, Hspread; reflexivity).
    all: pose proof (Nat.Div0.mul_div_le (length samples) 2400) as Hq.
    all: set (q := (length samples / 2400)%nat) in *.
    all: set (all := samples ++ Array_from d).
    all: assert (Hfuel : (length all - 2400 * q
                          <= length (audioBuffer st ++ Array_from d))%nat)
           by (unfold all; rewrite Hbuf, !length_app, length_skipn; lia).
    all: assert (Hb : audioBuffer st ++ Array_from d = skipn (2400 * q) all)
           by (unfold all; rewrite skipn_app, Hbuf;
               replace (2400 * q - length samples)%nat with 0%nat by lia;
               reflexivity).
    all: assert (Hqa : (2400 * q <= length all)%nat)
           by (unfold all; rewrite length_app; lia).
    all: destruct (drain_blocks all _ q
                     {| audioBuffer := audioBuffer st ++ Array_from d;
                        sent := sent st; aborted := false |} Hqa Hb Hfuel)
           as [Hs Hb'].
    + rewrite Hs. cbn [sent]. rewrite Hsent, <- app_assoc. f_equal.
      assert (Hle : (q <= length all / 2400)%nat)
        by (apply Nat.div_le_lower_bound; lia).
      replace (length all / 2400)%nat with (q + (length all / 2400 - q))%nat
        at 2 by lia.
      rewrite seq_app, map_app. rewrite Nat.add_0_l.
      apply (f_equal (fun l => l ++ _)).
      apply map_ext_in. intros k Hk. apply in_seq in Hk.
      unfold all. rewrite block_app; [reflexivity|].
      apply Nat.le_trans with (2400 * q)%nat; [|assumption].
      apply Nat.mul_le_mono_l. lia.
    + exact Hb'.
Qed.

(** X5. While the socket stays open and no frame is too large for
    [audioBuffer.push(...samples)], the audio messages of [ttsNode] do not
    depend on how the TTS stream cuts the audio into frames: the message
    number [k] carries the samples [2400 * k] to [2400 * k + 2399] of the
    whole utterance (fewer in the last message), resampled, and there are
    as many messages as the utterance has started blocks of 2400. *)
Theorem ttsNode_blocks_of_2400 (reads : list (option (list Z) * bool)) :
  Forall (fun read => snd read = true) reads ->
  Forall (spreads spreadable) reads ->
  ttsNode base64 spreadable eventId true reads true
  = Message "agent.speak_started" eventId None
    :: map (fun k => speak_resampled base64 eventId
                       (firstn 2400 (skipn (2400 * k) (samples_of reads))))
         (seq 0 ((length (samples_of reads) + 2399) / 2400)).
Proof.
  intros Hopen Hreads. unfold ttsNode.
  pose proof (reads_not_aborted reads
                (State [] [Message "agent.speak_started" eventId None] false)
                Hreads eq_refl) as Hrun.
  destruct (reads_blocks [Message "agent.speak_started" eventId None]
              reads []
              (State [] [Message "agent.speak_started" eventId None] false)
              Hopen Hreads) as [Hs Hb]; [reflexivity|reflexivity|reflexivity|].
  cbn [app] in Hs, Hb.
  set (st := fold_left _ _ _) in *.
  set (all := samples_of reads) in *.
  pose proof (Nat.div_mod_eq (length all) 2400) as Hdm.
  pose proof (Nat.mod_upper_bound (length all) 2400 ltac:(lia)) as Hmod.
  set (q := (length all / 2400)%nat) in *.
  set (r := (length all mod 2400)%nat) in *.
  unfold finish. rewrite Hrun, andb_true_r, Hb, length_skipn.
  destruct (Nat.ltb_spec 0 (length all - 2400 * q)) as [Hpos|Hzero]; cbn [sent].
  - assert (Hceil : ((length all + 2399) / 2400 = q + 1)%nat).
    { symmetry. apply (Nat.div_unique _ _ _ (r - 1)); lia. }
    rewrite Hceil, seq_app, map_app, Hs. cbn [app Nat.add seq map]. do 3 f_equal.
    rewrite firstn_all2; [reflexivity|]. rewrite length_skipn. lia.
  - assert (Hceil : ((length all + 2399) / 2400 = q)%nat).
    { symmetry. apply (Nat.div_unique _ _ _ 2399); lia. }
    rewrite Hceil, Hs. reflexivity.
Qed.

End TtsNodeFacts.

(** ** The size of a full chunk *)

Lemma length_buffer_bytes (a : list Z) :
  length (buffer_bytes a) = (2 * length a)%nat.
Proof.
  unfold buffer_bytes. induction a as [|z a IH]; [reflexivity|].
  cbn [flat_map]. rewrite length_app, IH. cbn [int16_bytes length]. lia.
Qed.

Lemma length_resample22To24 (samples : list float) :
  length (resample22To24 samples)
  = iterations (Math_floor (of_nat (length samples) * (24000 / 22050))%float).
Proof.
  unfold resample22To24, for_range, length_of.
  rewrite length_map, length_seq. reflexivity.
Qed.

(** X6. Every full chunk of 2400 samples at 22.05 kHz, whatever the samples
    are, goes out as 2612 samples at 24 kHz: 5224 bytes of PCM before the
    base64 encoding. *)
Theorem full_chunk_is_5224_bytes (chunk : list float) :
  length chunk = 2400%nat ->
  length (resample22To24 chunk) = 2612%nat
  /\ length (buffer_bytes (Int16Array_from (resample22To24 chunk))) = 5224%nat.
Proof.
  intros Hlen.
  assert (H : length (resample22To24 chunk) = 2612%nat).
  { rewrite length_resample22To24, Hlen. vm_compute. reflexivity. }
  split; [assumption|].
  rewrite length_buffer_bytes. unfold Int16Array_from.
  rewrite length_map, H. reflexivity.
Qed.

(** ** Utterances on the socket *)

Lemma same_utterance_nil : same_utterance [].
Proof. intros pre m m' post H. destruct pre; discriminate. Qed.

Lemma continues_with_nil (id : string) : continues_with id [].
Proof. intros pre m H. destruct pre; discriminate. Qed.

Lemma same_utterance_snoc (id : string) (trace : list message) (x : message) :
  same_utterance trace -> continues_with id trace -> event_id x = id ->
  same_utterance (trace ++ [x]).
Proof.
  intros Hsame Hcont Hx pre m m' post H Hm.
  destruct (list_eq_nil_dec post) as [->|Hpost].
  - change (pre ++ [m; m']) with (pre ++ [m] ++ [m']) in H.
    rewrite app_assoc in H. apply app_inj_tail in H. destruct H as [Htrace <-].
    rewrite Hx. symmetry. apply (Hcont pre m); assumption.
  - destruct (exists_last Hpost) as (post' & y & ->).
    change (pre ++ m :: m' :: post' ++ [y])
      with (pre ++ (m :: m' :: post') ++ [y]) in H.
    rewrite app_assoc in H. apply app_inj_tail in H. destruct H as [Htrace _].
    apply (Hsame pre m m' post'); assumption.
Qed.

Lemma continues_with_snoc (id : string) (trace : list message) (x : message) :
  (type x = "agent.speak" -> event_id x = id) ->
  continues_with id (trace ++ [x]).
Proof.
  intros Hx pre m H Hm. apply app_inj_tail in H. destruct H as [_ <-]. auto.
Qed.

Section AudioOutputFacts.

Import LiveAvatarAudioOutput.

Variable base64 : list Byte.byte -> string.

Lemma tidy_speak (a : option string) (st : state) :
  tidy st -> tidy (ws_send (Message "agent.speak" (eventId st) a) st).
Proof.
  intros [Hsame Hcont]. split; cbn [sent eventId ws_send].
  - apply (same_utterance_snoc (eventId st)); auto.
  - apply continues_with_snoc. auto.
Qed.

Lemma tidy_close (ty newId : string) (st : state) :
  ty <> "agent.speak" ->
  tidy st -> tidy (set_eventId newId (ws_send (Message ty (eventId st) None) st)).
Proof.
  intros Hty [Hsame Hcont]. split; cbn [sent eventId ws_send set_eventId].
  - apply (same_utterance_snoc (eventId st)); auto.
  - apply continues_with_snoc. cbn. intros E. contradiction.
Qed.

Lemma tidy_speak_all (frames : list AudioFrame) : forall st,
  tidy st ->
  tidy (fold_left
          (fun st resampledFrame =>
             ws_send (Message "agent.speak" (eventId st)
                        (Some (base64 (convertToPCM16 resampledFrame)))) st)
          frames st).
Proof.
  induction frames as [|f frames IH]; intros st Hst; cbn [fold_left];
    [assumption|].
  apply IH, tidy_speak, Hst.
Qed.

Lemma tidy_step (st : state) (o : op) : tidy st -> tidy (step base64 st o).
Proof.
  intros Hst. destruct o; cbn [step].
  - unfold captureFrame. destruct (negb (connected st)); [assumption|].
    destruct (match audioResampler st with
              | Some r => push r frame
              | None => Some [frame]
              end); [|assumption].
    apply tidy_speak_all, Hst.
  - unfold flush. destruct (connected st); [|assumption].
    apply tidy_close; [discriminate|assumption].
  - unfold clearBuffer. destruct (connected st); [|assumption].
    apply tidy_close; [discriminate|assumption].
  - exact Hst.
  - unfold connectWebSocket. destruct (wsUrl st); exact Hst.
  - exact Hst.
  - exact Hst.
  - exact Hst.
  - exact Hst.
Qed.

Lemma tidy_run (ops : list op) : forall st, tidy st -> tidy (run base64 st ops).
Proof.
  unfold run. induction ops as [|o ops IH]; intros st Hst; cbn [fold_left];
    [assumption|].
  apply IH, tidy_step, Hst.
Qed.

(** X7. However [captureFrame], [flush], [clearBuffer], [stop] and the
    socket events follow one another, a [LiveAvatarAudioOutput] that has
    sent nothing yet keeps its utterances apart: the message sent directly
    after an [agent.speak] message carries the same event id, so each run
    of audio and the [agent.speak_end] or [agent.interrupt] that closes it
    share one id; and if the last message was audio, its id is still the
    current [eventId]. *)
Theorem audio_output_keeps_utterances_apart (st : state) (ops : list op) :
  sent st = [] ->
  same_utterance (sent (run base64 st ops))
  /\ continues_with (eventId (run base64 st ops)) (sent (run base64 st ops)).
Proof.
  intros Hnil. apply tidy_run. unfold tidy. rewrite Hnil.
  split; [apply same_utterance_nil|apply continues_with_nil].
Qed.

Lemma silent_step (st : state) (o : op) :
  ws st = None -> o <> ConnectWebSocket ->
  ws (step base64 st o) = None /\ sent (step base64 st o) = sent st.
Proof.
  intros Hws Ho.
  assert (Hc : connected st = false).
  { unfold connected. rewrite Hws. apply andb_false_r. }
  destruct o; cbn [step]; try contradiction;
    unfold captureFrame, flush, clearBuffer; rewrite ?Hc; cbn; auto.
Qed.

Lemma silent_run (ops : list op) : forall st,
  ws st = None -> Forall (fun o => o <> ConnectWebSocket) ops ->
  sent (run base64 st ops) = sent st.
Proof.
  unfold run. induction ops as [|o ops IH]; intros st Hws Hops;
    cbn [fold_left]; [reflexivity|].
  apply Forall_cons_1 in Hops. destruct Hops as [Ho Hops].
  destruct (silent_step st o Hws Ho) as [Hws' Hsent'].
  rewrite IH by assumption. exact Hsent'.
Qed.

(** X8. After [stop], whatever is called and whatever the old socket still
    reports, nothing more is passed to [ws.send] until [connectWebSocket]
    runs again; [isConnected] may well still be true, it is the cleared
    [ws] field that holds the messages back. *)
Theorem audio_output_silent_after_stop (st : state) (ops : list op) :
  Forall (fun o => o <> ConnectWebSocket) ops ->
  sent (run base64 (stop st) ops) = sent st.
Proof.
  intros Hops. rewrite silent_run; [reflexivity|reflexivity|assumption].
Qed.

End AudioOutputFacts.

Section ForwarderFacts.

Import LiveAvatarForwarder.

Variable base64 : list Byte.byte -> string.

Lemma forwarder_tidy_step (st : state) (o : op) :
  tidy st -> tidy (step base64 st o).
Proof.
  intros [Hsame Hcont].
  destruct o; cbn [step]; unfold forward_frame, onSpeechEnd, onInterrupt,
    connectWebSocket; try (split; assumption).
  - destruct (negb (connected st)); [split; assumption|].
    split; cbn [sent eventId ws_send].
    + apply (same_utterance_snoc (eventId st)); auto.
    + apply continues_with_snoc. auto.
  - destruct (connected st); [|split; assumption].
    split; cbn [sent eventId ws_send set_eventId].
    + apply (same_utterance_snoc (eventId st)); auto.
    + apply continues_with_snoc. cbn. discriminate.
  - destruct (connected st); [|split; assumption].
    split; cbn [sent eventId ws_send set_eventId].
    + apply (same_utterance_snoc (eventId st)); auto.
    + apply continues_with_snoc. cbn. discriminate.
  - destruct (wsUrl st); split; assumption.
Qed.

Lemma forwarder_tidy_run (ops : list op) : forall st,
  tidy st -> tidy (run base64 st ops).
Proof.
  unfold run. induction ops as [|o ops IH]; intros st Hst; cbn [fold_left];
    [assumption|].
  apply IH, forwarder_tidy_step, Hst.
Qed.

(** X9. The same for a [LiveAvatarForwarder] that has sent nothing yet,
    however the frames of [forwardAudio], [onSpeechEnd], [onInterrupt],
    [stop] and the socket events follow one another: the message sent
    directly after an [agent.speak] message carries the same event id, and
    after audio the current [eventId] is still the id of that audio. *)
Theorem forwarder_keeps_utterances_apart (st : state) (ops : list op) :
  sent st = [] ->
  same_utterance (sent (run base64 st ops))
  /\ continues_with (eventId (run base64 st ops)) (sent (run base64 st ops)).
Proof.
  intros Hnil. apply forwarder_tidy_run. unfold tidy. rewrite Hnil.
  split; [apply same_utterance_nil|apply continues_with_nil].
Qed.

Lemma forwarder_quiet_step (st : state) (o : op) :
  isConnected st = false -> o <> OnOpen ->
  isConnected (step base64 st o) = false /\ step base64 st o = st
  \/ isConnected (step base64 st o) = false
     /\ sent (step base64 st o) = sent st
     /\ eventId (step base64 st o) = eventId st.
Proof.
  intros Hc Ho.
  assert (Hcon : connected st = false) by (unfold connected; rewrite Hc; reflexivity).
  destruct o; cbn [step]; try contradiction;
    unfold forward_frame, onSpeechEnd, onInterrupt, connectWebSocket;
    rewrite ?Hcon; cbn [negb]; auto.
  destruct (wsUrl st); auto.
Qed.

Lemma forwarder_quiet_run (ops : list op) : forall st,
  isConnected st = false -> Forall (fun o => o <> OnOpen) ops ->
  sent (run base64 st ops) = sent st
  /\ eventId (run base64 st ops) = eventId st.
Proof.
  unfold run. induction ops as [|o ops IH]; intros st Hc Hops;
    cbn [fold_left]; [auto|].
  apply Forall_cons_1 in Hops. destruct Hops as [Ho Hops].
  destruct (forwarder_quiet_step st o Hc Ho) as [[Hc' ->]|(Hc' & Hs & He)].
  - apply IH; assumption.
  - destruct (IH _ Hc' Hops) as [Hs' He']. rewrite Hs', He'. auto.
Qed.

(** X10. While the socket has not reported [open] (or after it reported
    [close] or [error]), a [LiveAvatarForwarder] drops every frame and
    swallows every [onSpeechEnd] and [onInterrupt]: nothing is passed to
    [ws.send], and the event id is not renewed either, so the utterance
    that is interrupted by the outage goes on under its old id. *)
Theorem forwarder_drops_everything_while_disconnected
    (st : state) (ops : list op) :
  isConnected st = false ->
  Forall (fun o => o <> OnOpen) ops ->
  sent (run base64 st ops) = sent st
  /\ eventId (run base64 st ops) = eventId st.
Proof. apply forwarder_quiet_run. Qed.

End ForwarderFacts.

(** ** Binary64 arithmetic on values that need no rounding *)

Section Exact.

Local Open Scope Z_scope.

Lemma digits2_pos_log2 (m : positive) :
  Z.pos (digits2_pos m) = Z.log2 (Z.pos m) + 1.
Proof.
  induction m as [m IH|m IH|]; cbn [digits2_pos]; [| |reflexivity].
  - rewrite Pos2Z.inj_succ, IH. cbn [Z.log2]. destruct m; cbn; lia.
  - rewrite Pos2Z.inj_succ, IH. cbn [Z.log2]. destruct m; cbn; lia.
Qed.

Lemma shr_1_double (c : Z) :
  0 <= c ->
  shr_1 (Build_shr_record (c * 2) false false) = Build_shr_record c false false.
Proof.
  intros Hc. rewrite Z.mul_comm.
  destruct c as [|p|p]; [reflexivity|reflexivity|lia].
Qed.

Lemma iter_shr_exact (n : positive) : forall c : Z,
  0 <= c ->
  SpecFloat.iter_pos shr_1 n (Build_shr_record (c * 2 ^ Z.pos n) false false)
  = Build_shr_record c false false.
Proof.
  induction n as [n IH|n IH|]; intros c Hc; cbn [SpecFloat.iter_pos].
  - replace (c * 2 ^ Z.pos n~1) with (c * 2 ^ Z.pos n * 2 ^ Z.pos n * 2).
    + rewrite shr_1_double by (apply Z.mul_nonneg_nonneg; [apply Z.mul_nonneg_nonneg|]; lia).
      rewrite IH by (apply Z.mul_nonneg_nonneg; lia).
      apply IH. assumption.
    + replace (Z.pos n~1) with (Z.pos n + Z.pos n + 1) by lia.
      rewrite !Z.pow_add_r, Z.pow_1_r by lia. ring.
  - replace (c * 2 ^ Z.pos n~0) with (c * 2 ^ Z.pos n * 2 ^ Z.pos n).
    + rewrite IH by (apply Z.mul_nonneg_nonneg; lia).
      apply IH. assumption.
    + replace (Z.pos n~0) with (Z.pos n + Z.pos n) by lia.
      rewrite Z.pow_add_r by lia. ring.
  - rewrite Z.pow_1_r. apply shr_1_double. assumption.
Qed.

Lemma fexp_eq (e : Z) : fexp prec emax e = Z.max (e - 53) (-1074).
Proof. reflexivity. Qed.

Lemma Zdigits2_log2 (m : Z) : 0 < m -> Zdigits2 m = Z.log2 m + 1.
Proof.
  intros Hm. destruct m as [|p|p]; try lia. apply digits2_pos_log2.
Qed.

Lemma Zdigits2_mul_pow2 (c n : Z) :
  0 < c -> 0 <= n -> Zdigits2 (c * 2 ^ n) = Zdigits2 c + n.
Proof.
  intros Hc Hn.
  assert (0 < 2 ^ n) by (apply Z.pow_pos_nonneg; lia).
  rewrite !Zdigits2_log2 by nia.
  rewrite Z.log2_mul_pow2 by lia. lia.
Qed.

Lemma shr_exact (c e n : Z) :
  0 <= c -> 0 <= n ->
  shr (Build_shr_record (c * 2 ^ n) false false) e n
  = (Build_shr_record c false false, e + n).
Proof.
  intros Hc Hn. destruct n as [|p|p]; [| |lia]; cbn [shr].
  - rewrite Z.pow_0_r, Z.mul_1_r, Z.add_0_r. reflexivity.
  - rewrite iter_shr_exact by assumption. reflexivity.
Qed.

Lemma shr_nonpos (r : shr_record) (e n : Z) : n <= 0 -> shr r e n = (r, e).
Proof. intros Hn. destruct n as [|p|p]; [reflexivity|lia|reflexivity]. Qed.

(** Rounding a number that needs no rounding: when the [n] bits the format
    cannot keep are all zero. *)
Lemma binary_round_aux_exact (sx : bool) (c e n : Z) :
  0 < c -> 0 <= n ->
  Z.max 0 (fexp prec emax (Zdigits2 (c * 2 ^ n) + e) - e) = n ->
  e + n <= 971 ->
  binary_round_aux prec emax sx (c * 2 ^ n) e loc_Exact
  = S754_finite sx (Z.to_pos c) (e + n).
Proof.
  intros Hc Hn Hfexp Hmax.
  unfold binary_round_aux, shr_fexp. cbn [shr_record_of_loc].
  remember (fexp prec emax (Zdigits2 (c * 2 ^ n) + e) - e) as N eqn:HN0.
  assert (Hfirst : shr (Build_shr_record (c * 2 ^ n) false false) e N
                   = (Build_shr_record c false false, e + n)).
  { destruct (Z_le_gt_dec N 0) as [HN|HN].
    - rewrite shr_nonpos by assumption.
      assert (Hn0 : n = 0) by lia. rewrite Hn0.
      rewrite Z.pow_0_r, Z.mul_1_r, Z.add_0_r. reflexivity.
    - assert (HNn : N = n) by lia. rewrite HNn. apply shr_exact; lia. }
  rewrite Hfirst. cbn [shr_m loc_of_shr_record round_nearest_even].
  assert (Hsecond : fexp prec emax (Zdigits2 c + (e + n)) - (e + n) <= 0).
  { rewrite HN0, Zdigits2_mul_pow2 in Hfexp by lia.
    replace (Zdigits2 c + (e + n)) with (Zdigits2 c + n + e) by lia. lia. }
  rewrite shr_nonpos by assumption. cbn [shr_m].
  destruct c as [|p|p]; try lia.
  replace (e + n <=? emax - prec) with true; [reflexivity|].
  symmetry. apply Z.leb_le. change (emax - prec) with 971. lia.
Qed.

(** The same for a number given with any of its representations
    [k * 2^g] that fits the format. *)
Lemma binary_round_aux_repr (sx : bool) (M : positive) (e k g : Z) :
  0 < k < 2 ^ 53 -> -1074 <= g <= 971 -> e <= g ->
  Z.pos M = k * 2 ^ (g - e) ->
  exists (m' : positive) (e' : Z),
    binary_round_aux prec emax sx (Z.pos M) e loc_Exact = S754_finite sx m' e'
    /\ e <= e' /\ Z.pos M = Z.pos m' * 2 ^ (e' - e).
Proof.
  intros Hk Hg Heg HM.
  assert (Hlog : Z.log2 k < 53) by (apply Z.log2_lt_pow2; lia).
  assert (Hdig : Zdigits2 (Z.pos M) + e = Z.log2 k + 1 + g).
  { rewrite HM, Zdigits2_mul_pow2, Zdigits2_log2 by lia. lia. }
  set (n := Z.max 0 (fexp prec emax (Zdigits2 (Z.pos M) + e) - e)).
  assert (Hn : 0 <= n <= g - e).
  { unfold n. rewrite Hdig, fexp_eq. lia. }
  set (c := k * 2 ^ (g - e - n)).
  assert (Hc : 0 < c).
  { unfold c. apply Z.mul_pos_pos; [lia|]. apply Z.pow_pos_nonneg; lia. }
  assert (HMc : Z.pos M = c * 2 ^ n).
  { unfold c. rewrite <- Z.mul_assoc, <- Z.pow_add_r by lia.
    rewrite HM. do 2 f_equal. lia. }
  exists (Z.to_pos c), (e + n).
  split; [|split].
  - rewrite HMc. apply binary_round_aux_exact; try lia.
    rewrite <- HMc. reflexivity.
  - lia.
  - rewrite Z2Pos.id by assumption.
    replace (e + n - e) with n by lia. exact HMc.
Qed.


Lemma bpow_pos e : (0 < bpow e)%R.
Proof. apply powerRZ_lt. lra. Qed.

Lemma bpow_add a b : bpow (a + b) = (bpow a * bpow b)%R.
Proof. apply powerRZ_add. lra. Qed.

Lemma bpow_0 : bpow 0 = 1%R.
Proof. reflexivity. Qed.

Lemma bpow_1 : bpow 1 = 2%R.
Proof. unfold bpow. simpl. lra. Qed.

Lemma bpow_opp e : bpow (- e) = (/ bpow e)%R.
Proof. apply powerRZ_neg'. Qed.

Lemma bpow_succ e : bpow (e + 1) = (2 * bpow e)%R.
Proof. rewrite bpow_add, bpow_1. lra. Qed.

Lemma bpow_IZR (k : Z) : (0 <= k)%Z -> bpow k = IZR (2 ^ k).
Proof.
  intros Hk. unfold bpow.
  rewrite <- (Z2Nat.id k Hk) at 1 2.
  rewrite <- pow_powerRZ, pow_IZR. reflexivity.
Qed.

Lemma bpow_le a b : (a <= b)%Z -> (bpow a <= bpow b)%R.
Proof.
  intros H. replace b with (a + (b - a))%Z by lia.
  rewrite bpow_add.
  assert (1 <= bpow (b - a))%R.
  { rewrite bpow_IZR by lia. apply IZR_le.
    assert (0 < 2 ^ (b - a))%Z by (apply Z.pow_pos_nonneg; lia). lia. }
  pose proof (bpow_pos a). nra.
Qed.

Lemma bpow_lt a b : (a < b)%Z -> (bpow a < bpow b)%R.
Proof.
  intros H. apply Rlt_le_trans with (bpow (a + 1)).
  - rewrite bpow_succ. pose proof (bpow_pos a). lra.
  - apply bpow_le. lia.
Qed.

Lemma bpow_lt_inv a b : (bpow a < bpow b)%R -> (a < b)%Z.
Proof.
  intros H. destruct (Z_lt_le_dec a b) as [|Hle]; [assumption|].
  apply bpow_le in Hle. lra.
Qed.




Lemma F2R_shift (m e n : Z) : 0 <= n -> F2R (m * 2 ^ n) e = F2R m (e + n).
Proof.
  intros Hn. unfold F2R.
  rewrite mult_IZR, <- bpow_IZR by assumption.
  rewrite (Z.add_comm e n), bpow_add. ring.
Qed.

Lemma F2R_eq_Z (M k e g : Z) :
  e <= g -> F2R M e = F2R k g -> M = k * 2 ^ (g - e).
Proof.
  intros Heg H. apply eq_IZR.
  replace g with (e + (g - e)) in H by lia.
  rewrite <- F2R_shift in H by lia. unfold F2R in H.
  pose proof (bpow_pos e) as He.
  apply Rmult_eq_reg_r in H; [assumption|lra].
Qed.

Lemma pow2_lt_inv (a b : Z) : 0 <= a -> 2 ^ a < 2 ^ b -> a < b.
Proof.
  intros Ha H. destruct (Z_lt_le_dec a b) as [|Hle]; [assumption|].
  destruct (Z_lt_le_dec b 0) as [Hb|Hb].
  - rewrite (Z.pow_neg_r 2 b) in H by assumption.
    assert (0 < 2 ^ a) by (apply Z.pow_pos_nonneg; lia). lia.
  - assert (2 ^ b <= 2 ^ a) by (apply Z.pow_le_mono_r; lia). lia.
Qed.

Lemma binary_round_aux_value (sx : bool) (M : positive) (e k g : Z) :
  0 < k < 2 ^ 53 -> -1074 <= g <= 900 ->
  F2R (Z.pos M) e = F2R k g ->
  exists (m' : positive) (e' : Z),
    binary_round_aux prec emax sx (Z.pos M) e loc_Exact = S754_finite sx m' e'
    /\ F2R (Z.pos m') e' = F2R (Z.pos M) e.
Proof.
  intros Hk Hg HV.
  assert (Hrepr : exists k' g', 0 < k' < 2 ^ 53 /\ -1074 <= g' <= 971
                                /\ e <= g' /\ Z.pos M = k' * 2 ^ (g' - e)).
  { destruct (Z_le_gt_dec e g) as [Heg|Heg].
    - exists k, g. repeat split; try lia. apply F2R_eq_Z; assumption.
    - symmetry in HV. apply F2R_eq_Z in HV; [|lia].
      assert (Hp : 0 < 2 ^ (e - g)) by (apply Z.pow_pos_nonneg; lia).
      exists (Z.pos M), e. rewrite Z.sub_diag, Z.pow_0_r, Z.mul_1_r.
      assert (HM : Z.pos M <= k) by nia.
      assert (Hlt : 2 ^ (e - g) < 2 ^ 53) by nia.
      apply pow2_lt_inv in Hlt; [|lia].
      repeat split; lia. }
  destruct Hrepr as (k' & g' & Hk' & Hg' & Heg' & HM).
  destruct (binary_round_aux_repr sx M e k' g' Hk' Hg' Heg' HM)
    as (m' & e' & Hr & Hee & Hm').
  exists m', e'. split; [assumption|].
  rewrite Hm', F2R_shift by lia. f_equal. lia.
Qed.


Lemma iter_xO_pow2 (m d : positive) :
  Z.pos (Pos.iter xO m d) = Z.pos m * 2 ^ Z.pos d.
Proof.
  induction d as [|d IH] using Pos.peano_ind.
  - cbn [Pos.iter]. rewrite Z.pow_1_r. lia.
  - rewrite Pos.iter_succ, Pos2Z.inj_xO, IH, Pos2Z.inj_succ, Z.pow_succ_r by lia.
    ring.
Qed.

Lemma binary_round_value (sx : bool) (M : positive) (e k g : Z) :
  0 < k < 2 ^ 53 -> -1074 <= g <= 900 ->
  F2R (Z.pos M) e = F2R k g ->
  exists (m' : positive) (e' : Z),
    binary_round prec emax sx M e = S754_finite sx m' e'
    /\ F2R (Z.pos m') e' = F2R (Z.pos M) e.
Proof.
  intros Hk Hg HV. unfold binary_round, shl_align.
  destruct (fexp prec emax (Z.pos (digits2_pos M) + e) - e) as [|d|d] eqn:Hd;
    try (apply (binary_round_aux_value sx M e k g); assumption).
  assert (Heq : F2R (Z.pos (Pos.iter xO M d))
                    (fexp prec emax (Z.pos (digits2_pos M) + e))
                = F2R (Z.pos M) e).
  { rewrite iter_xO_pow2, F2R_shift by lia. f_equal. lia. }
  destruct (binary_round_aux_value sx (Pos.iter xO M d)
              (fexp prec emax (Z.pos (digits2_pos M) + e)) k g Hk Hg)
    as (m' & e' & Hr & Hv).
  - rewrite Heq. assumption.
  - exists m', e'. split; [assumption|]. rewrite Hv. assumption.
Qed.



Lemma canonical_bounds (m : positive) (e : Z) :
  valid_binary (S754_finite false m e) = true ->
  Z.pos m < 2 ^ 53 /\ -1074 <= e <= 971.
Proof.
  unfold SpecFloat.valid_binary, SpecFloat.bounded, SpecFloat.canonical_mantissa.
  rewrite andb_true_iff, Z.eqb_eq, Z.leb_le, fexp_eq, digits2_pos_log2.
  change (emax - prec) with 971.
  intros [Hcan He]. split; [|lia].
  assert (Z.log2 (Z.pos m) < 53) by lia.
  apply Z.log2_lt_pow2; lia.
Qed.

Lemma Prim2SF_bounds (x : float) (s : bool) (m : positive) (e : Z) :
  Prim2SF x = S754_finite s m e -> Z.pos m < 2 ^ 53 /\ -1074 <= e <= 971.
Proof.
  intros Hx. pose proof (Prim2SF_valid x) as Hv. rewrite Hx in Hv.
  apply canonical_bounds. exact Hv.
Qed.

Local Open Scope R_scope.

Lemma F2R_neg (m : positive) (e : Z) : F2R (Z.neg m) e = - F2R (Z.pos m) e.
Proof.
  unfold F2R. change (Z.neg m) with (- Z.pos m)%Z. rewrite opp_IZR. ring.
Qed.

Lemma F2R_pos_pos (m : positive) (e : Z) : 0 < F2R (Z.pos m) e.
Proof.
  unfold F2R. apply Rmult_lt_0_compat; [|apply bpow_pos].
  apply IZR_lt. lia.
Qed.

Lemma F2R_mul (m1 e1 m2 e2 : Z) :
  F2R m1 e1 * F2R m2 e2 = F2R (m1 * m2) (e1 + e2).
Proof. unfold F2R. rewrite mult_IZR, bpow_add. ring. Qed.

Lemma F2R_abs (k g : Z) : Rabs (F2R k g) = F2R (Z.abs k) g.
Proof.
  unfold F2R. rewrite Rabs_mult, abs_IZR, (Rabs_pos_eq (bpow g)).
  - reflexivity.
  - apply Rlt_le, bpow_pos.
Qed.

Lemma F2R_0 (g : Z) : F2R 0 g = 0.
Proof. unfold F2R. ring. Qed.

Lemma SF2R_finite_abs (s : bool) (m : positive) (e : Z) :
  Rabs (SF2R (S754_finite s m e)) = F2R (Z.pos m) e.
Proof.
  cbn [SF2R]. pose proof (F2R_pos_pos m e).
  destruct s; [rewrite F2R_neg, Rabs_Ropp|]; apply Rabs_pos_eq; lra.
Qed.


Lemma representable_abs (v : R) :
  representable v -> v <> 0 ->
  exists k g : Z, Rabs v = F2R k g /\ (0 < k < 2 ^ 53)%Z /\ (-1074 <= g <= 900)%Z.
Proof.
  intros (k & g & -> & Hk & Hg) Hv.
  exists (Z.abs k), g. rewrite F2R_abs. split; [reflexivity|]. split; [|assumption].
  split; [|assumption].
  destruct (Z.eq_dec k 0%Z) as [->|Hne]; [|lia].
  rewrite F2R_0 in Hv. contradiction.
Qed.

Lemma representable_IZR (z : Z) : (Z.abs z < 2 ^ 53)%Z -> representable (IZR z).
Proof.
  intros Hz. exists z, 0%Z. unfold F2R. rewrite bpow_0.
  split; [ring|]. split; [assumption|lia].
Qed.

(** The result of rounding a representable value, whatever its sign. *)
Lemma binary_round_aux_signed (sx : bool) (M : positive) (e : Z) :
  representable (F2R (Z.pos M) e) ->
  exists (m' : positive) (e' : Z),
    binary_round_aux prec emax sx (Z.pos M) e loc_Exact = S754_finite sx m' e'
    /\ F2R (Z.pos m') e' = F2R (Z.pos M) e.
Proof.
  intros Hr. pose proof (F2R_pos_pos M e) as Hpos.
  destruct (representable_abs _ Hr) as (k & g & Hv & Hk & Hg); [lra|].
  rewrite Rabs_pos_eq in Hv by lra.
  apply (binary_round_aux_value sx M e k g); assumption.
Qed.

Lemma binary_round_signed (sx : bool) (M : positive) (e : Z) :
  representable (F2R (Z.pos M) e) ->
  exists (m' : positive) (e' : Z),
    binary_round prec emax sx M e = S754_finite sx m' e'
    /\ F2R (Z.pos m') e' = F2R (Z.pos M) e.
Proof.
  intros Hr. pose proof (F2R_pos_pos M e) as Hpos.
  destruct (representable_abs _ Hr) as (k & g & Hv & Hk & Hg); [lra|].
  rewrite Rabs_pos_eq in Hv by lra.
  apply (binary_round_value sx M e k g); assumption.
Qed.

Lemma binary_normalize_value (z e : Z) :
  representable (F2R z e) ->
  exists x : spec_float,
    binary_normalize prec emax z e false = x
    /\ SF2R x = F2R z e
    /\ match x with S754_zero _ | S754_finite _ _ _ => True | _ => False end.
Proof.
  intros Hr. destruct z as [|p|p]; cbn [binary_normalize].
  - eexists. split; [reflexivity|]. cbn [SF2R]. rewrite F2R_0. auto.
  - destruct (binary_round_signed false p e Hr) as (m' & e' & -> & Hv).
    eexists. split; [reflexivity|]. cbn [SF2R]. auto.
  - assert (Hr' : representable (F2R (Z.pos p) e)).
    { destruct Hr as (k & g & Hv & Hk & Hg). exists (- k)%Z, g.
      split; [|split; [lia|assumption]].
      rewrite F2R_neg in Hv. unfold F2R in *. rewrite opp_IZR. lra. }
    destruct (binary_round_signed true p e Hr') as (m' & e' & -> & Hv).
    eexists. split; [reflexivity|]. cbn [SF2R].
    rewrite !F2R_neg, Hv. auto.
Qed.

End Exact.

(** ** The operations of JavaScript numbers, on values that need no rounding *)

Section ExactOperations.

Local Open Scope R_scope.

Lemma finite_zero (x : float) (s : bool) :
  Prim2SF x = S754_zero s -> finite x /\ B2R x = 0.
Proof. intros H. unfold finite, B2R. rewrite H. auto. Qed.

Lemma of_uint63_value (z : Z) :
  (0 <= z < 2 ^ 53)%Z ->
  finite (of_uint63 (Uint63.of_Z z)) /\ B2R (of_uint63 (Uint63.of_Z z)) = IZR z.
Proof.
  intros Hz. unfold finite, B2R. rewrite of_uint63_spec, Uint63.of_Z_spec.
  rewrite Z.mod_small by (change wB with (2 ^ 63)%Z; lia).
  destruct (binary_normalize_value z 0) as (x & -> & Hv & Hf).
  - exists z, 0%Z. split; [reflexivity|]. lia.
  - rewrite Hv. unfold F2R. rewrite bpow_0. split; [assumption|ring].
Qed.

Lemma opp_value (x : float) :
  finite x -> finite (- x)%float /\ B2R (- x)%float = - B2R x.
Proof.
  unfold finite, B2R. rewrite FloatAxioms.opp_spec.
  destruct (Prim2SF x) as [s|s| |s m e]; cbn [SFopp SF2R]; intros H;
    try contradiction.
  - split; [exact I|ring].
  - split; [exact I|]. destruct s; cbn [negb]; rewrite F2R_neg; ring.
Qed.

(** [of_Z] is exact on the integers every array index and length is. *)
Lemma of_Z_value (z : Z) :
  (Z.abs z < 2 ^ 53)%Z -> finite (of_Z z) /\ B2R (of_Z z) = IZR z.
Proof.
  intros Hz. unfold of_Z. destruct (Z.ltb_spec z 0) as [Hneg|Hpos].
  - destruct (of_uint63_value (- z)) as [Hf Hv]; [lia|].
    destruct (opp_value _ Hf) as [Hf' Hv'].
    split; [assumption|]. rewrite Hv', Hv, opp_IZR. ring.
  - apply of_uint63_value. lia.
Qed.

Lemma SF2R_sign (s1 s2 : bool) (m1 m2 : positive) (e1 e2 : Z) (m' : positive)
    (e' : Z) :
  F2R (Z.pos m') e' = F2R (Z.pos m1) e1 * F2R (Z.pos m2) e2 ->
  SF2R (S754_finite (xorb s1 s2) m' e')
  = SF2R (S754_finite s1 m1 e1) * SF2R (S754_finite s2 m2 e2).
Proof.
  intros H. cbn [SF2R].
  destruct s1, s2; cbn [xorb]; rewrite ?F2R_neg, H; ring.
Qed.

(** A product that is representable is computed exactly. *)
Lemma mul_exact (x y : float) :
  finite x -> finite y -> representable (B2R x * B2R y) ->
  finite (x * y)%float /\ B2R (x * y)%float = B2R x * B2R y.
Proof.
  unfold finite, B2R. rewrite FloatAxioms.mul_spec. unfold SF64mul.
  destruct (Prim2SF x) as [sx|sx| |sx mx ex]; try contradiction;
    destruct (Prim2SF y) as [sy|sy| |sy my ey]; try contradiction;
    intros _ _ Hr; cbn [SFmul]; try (cbn [SF2R]; split; [exact I|ring]).
  assert (Hr' : representable (F2R (Z.pos (mx * my)) (ex + ey))).
  { destruct Hr as (k & g & Hv & Hk & Hg).
    exists (Z.abs k), g. split; [|split; [lia|assumption]].
    rewrite <- F2R_abs, <- Hv, Rabs_mult, !SF2R_finite_abs, F2R_mul.
    reflexivity. }
  destruct (binary_round_aux_signed (xorb sx sy) (mx * my) (ex + ey) Hr')
    as (m' & e' & -> & Hv).
  split; [exact I|]. apply SF2R_sign.
  rewrite Hv, F2R_mul. reflexivity.
Qed.

End ExactOperations.

Section ExactDivision.

Local Open Scope R_scope.

Lemma IZR_digits_bounds (m : positive) :
  bpow (Z.pos (digits2_pos m) - 1) <= IZR (Z.pos m)
  /\ IZR (Z.pos m) < bpow (Z.pos (digits2_pos m)).
Proof.
  rewrite digits2_pos_log2.
  pose proof (Z.log2_nonneg (Z.pos m)) as Hnn.
  destruct (Z.log2_spec (Z.pos m)) as [Hlo Hhi]; [lia|].
  rewrite !bpow_IZR by lia. split; [apply IZR_le|apply IZR_lt].
  - replace (Z.log2 (Z.pos m) + 1 - 1)%Z with (Z.log2 (Z.pos m)) by lia. exact Hlo.
  - replace (Z.log2 (Z.pos m) + 1)%Z with (Z.succ (Z.log2 (Z.pos m))) by lia. exact Hhi.
Qed.

Lemma new_location_zero (m : Z) : new_location m 0 = loc_Exact.
Proof.
  unfold new_location, new_location_even, new_location_odd.
  destruct (Z.even m); reflexivity.
Qed.

Lemma div_core_exact (m1 m2 : positive) (e1 e2 k g : Z) :
  (0 < k < 2 ^ 53)%Z -> (-1074 <= g <= 900)%Z ->
  F2R (Z.pos m1) e1 = F2R k g * F2R (Z.pos m2) e2 ->
  exists (q : positive) (e' : Z),
    SFdiv_core_binary prec emax (Z.pos m1) e1 (Z.pos m2) e2
    = (Z.pos q, e', loc_Exact)
    /\ F2R (Z.pos q) e' = F2R k g.
Proof.
  intros Hk Hg HV. unfold SFdiv_core_binary.
  cbn [Zdigits2].
  set (d1 := Z.pos (digits2_pos m1)). set (d2 := Z.pos (digits2_pos m2)).
  set (e' := Z.min (fexp prec emax (d1 + e1 - (d2 + e2))) (e1 - e2)).
  set (s := (e1 - e2 - e')%Z).
  assert (Hs : (0 <= s)%Z) by (unfold s, e'; lia).
  (* the exponent of the quotient is not above [g] *)
  assert (Heg : (e' <= g)%Z).
  { destruct (IZR_digits_bounds m1) as [Hlo1 _].
    destruct (IZR_digits_bounds m2) as [_ Hhi2].
    fold d1 in Hlo1. fold d2 in Hhi2.
    assert (Hk' : IZR k < bpow 53).
    { rewrite bpow_IZR by lia. apply IZR_lt. lia. }
    assert (Hk0 : 0 < IZR k) by (apply IZR_lt; lia).
    assert (Hlt : bpow (d1 - 1 + e1) < bpow (53 + g + d2 + e2)).
    { rewrite !bpow_add.
      pose proof (bpow_pos e1). pose proof (bpow_pos e2). pose proof (bpow_pos g).
      pose proof (bpow_pos d2). pose proof (bpow_pos 53).
      unfold F2R in HV.
      apply Rle_lt_trans with (IZR (Z.pos m1) * bpow e1).
      - apply Rmult_le_compat_r; lra.
      - rewrite HV.
        assert (IZR k * bpow g < bpow 53 * bpow g) by (apply Rmult_lt_compat_r; lra).
        assert (0 < IZR (Z.pos m2)) by (apply IZR_lt; lia).
        assert (IZR (Z.pos m2) * bpow e2 < bpow d2 * bpow e2)
          by (apply Rmult_lt_compat_r; lra).
        assert (0 < IZR k * bpow g) by (apply Rmult_lt_0_compat; lra).
        assert (0 < IZR (Z.pos m2) * bpow e2) by (apply Rmult_lt_0_compat; lra).
        replace (bpow 53 * bpow g * bpow d2 * bpow e2)
          with ((bpow 53 * bpow g) * (bpow d2 * bpow e2)) by ring.
        apply Rmult_gt_0_lt_compat; lra. }
    apply bpow_lt_inv in Hlt.
    unfold e'. rewrite fexp_eq. lia. }
  (* so the division of the mantissas leaves no remainder *)
  assert (Hm' : (Z.pos m1 * 2 ^ s = k * 2 ^ (g - e') * Z.pos m2)%Z).
  { assert (H : F2R (Z.pos m1 * 2 ^ s) (e1 - s) = F2R (k * Z.pos m2) (g + e2)).
    { rewrite F2R_shift by assumption.
      replace (e1 - s + s)%Z with e1 by lia.
      rewrite HV, F2R_mul. reflexivity. }
    apply F2R_eq_Z in H; [|unfold s; lia].
    rewrite H. replace (g + e2 - (e1 - s))%Z with (g - e')%Z by (unfold s; lia).
    ring. }
  set (q := (k * 2 ^ (g - e'))%Z) in *.
  assert (Hq : (0 < q)%Z).
  { unfold q. apply Z.mul_pos_pos; [lia|]. apply Z.pow_pos_nonneg; lia. }
  assert (Hshift : match s with
                   | Z.pos _ => Z.shiftl (Z.pos m1) s
                   | 0%Z => Z.pos m1
                   | Z.neg _ => 0%Z
                   end = (q * Z.pos m2)%Z).
  { rewrite <- Hm'. destruct s as [|p|p] eqn:Es; [| |lia].
    - rewrite Z.pow_0_r. lia.
    - rewrite Z.shiftl_mul_pow2 by lia. reflexivity. }
  rewrite Hshift.
  pose proof (Z_div_mod (q * Z.pos m2) (Z.pos m2) ltac:(lia)) as Hdm.
  destruct (Z.div_eucl (q * Z.pos m2) (Z.pos m2)) as [q' r].
  destruct Hdm as [Heq Hr].
  assert (Hq' : q' = q) by nia.
  assert (Hr0 : r = 0%Z) by nia.
  subst q' r. rewrite new_location_zero.
  exists (Z.to_pos q), e'. rewrite Z2Pos.id by assumption.
  split; [reflexivity|].
  unfold q. rewrite F2R_shift by lia. f_equal. lia.
Qed.

(** A quotient that is representable is computed exactly. *)
Lemma div_exact (x y : float) :
  finite x -> finite y -> B2R y <> 0 -> representable (B2R x / B2R y) ->
  finite (x / y)%float /\ B2R (x / y)%float = B2R x / B2R y.
Proof.
  unfold finite, B2R. rewrite FloatAxioms.div_spec. unfold SF64div.
  destruct (Prim2SF x) as [sx|sx| |sx mx ex]; try contradiction;
    destruct (Prim2SF y) as [sy|sy| |sy my ey]; try contradiction;
    intros _ _ Hy Hr; cbn [SFdiv]; cbn [SF2R] in Hy; try contradiction.
  - cbn [SF2R]. split; [exact I|]. unfold Rdiv. ring.
  - pose proof (F2R_pos_pos mx ex) as Hx0. pose proof (F2R_pos_pos my ey) as Hy0.
    assert (Hne : SF2R (S754_finite sx mx ex) / SF2R (S754_finite sy my ey) <> 0).
    { cbn [SF2R]. destruct sx, sy; rewrite ?F2R_neg;
        apply Rmult_integral_contrapositive_currified;
        try apply Rinv_neq_0_compat; lra. }
    destruct (representable_abs _ Hr Hne) as (k & g & Hv & Hk & Hg).
    assert (HV : F2R (Z.pos mx) ex = F2R k g * F2R (Z.pos my) ey).
    { rewrite <- Hv. unfold Rdiv. rewrite Rabs_mult, Rabs_inv, !SF2R_finite_abs.
      field. lra. }
    destruct (div_core_exact mx my ex ey k g Hk Hg HV) as (q & e' & -> & Hq).
    assert (Hrq : representable (F2R (Z.pos q) e')).
    { exists k, g. split; [assumption|]. split; [lia|assumption]. }
    destruct (binary_round_aux_signed (xorb sx sy) q e' Hrq)
      as (m' & e'' & -> & Hm').
    split; [exact I|]. cbn [SF2R].
    assert (Hquot : F2R (Z.pos m') e'' = F2R (Z.pos mx) ex / F2R (Z.pos my) ey).
    { rewrite Hm', Hq, HV. field. lra. }
    destruct sx, sy; cbn [xorb]; rewrite ?F2R_neg, Hquot; field; lra.
Qed.

End ExactDivision.

Section ExactSums.

Local Open Scope R_scope.

Lemma shl_align_fst (m : positive) (e ez : Z) :
  (ez <= e)%Z ->
  Z.pos (fst (shl_align m e ez)) = (Z.pos m * 2 ^ (e - ez))%Z.
Proof.
  intros He. unfold shl_align.
  destruct (ez - e)%Z as [|d|d] eqn:Hd; cbn [fst]; try lia.
  - replace (e - ez)%Z with 0%Z by lia. rewrite Z.pow_0_r. lia.
  - rewrite iter_xO_pow2. do 2 f_equal. lia.
Qed.

Lemma F2R_opp (k e : Z) : F2R (- k) e = - F2R k e.
Proof. unfold F2R. rewrite opp_IZR. ring. Qed.

Lemma aligned_value (s : bool) (m : positive) (e ez : Z) :
  (ez <= e)%Z ->
  F2R (cond_Zopp s (Z.pos (fst (shl_align m e ez)))) ez
  = SF2R (S754_finite s m e).
Proof.
  intros He. rewrite shl_align_fst by assumption. cbn [SF2R].
  assert (H : F2R (Z.pos m * 2 ^ (e - ez)) ez = F2R (Z.pos m) e).
  { rewrite F2R_shift by lia. f_equal. lia. }
  destruct s; cbn [cond_Zopp].
  - rewrite F2R_opp, H, F2R_neg. reflexivity.
  - exact H.
Qed.

Lemma F2R_add (a b e : Z) : F2R (a + b) e = F2R a e + F2R b e.
Proof. unfold F2R. rewrite plus_IZR. ring. Qed.

Lemma F2R_sub (a b e : Z) : F2R (a - b) e = F2R a e - F2R b e.
Proof. unfold F2R. rewrite minus_IZR. ring. Qed.

(** A sum that is representable is computed exactly. *)
Lemma add_exact (x y : float) :
  finite x -> finite y -> representable (B2R x + B2R y) ->
  finite (x + y)%float /\ B2R (x + y)%float = B2R x + B2R y.
Proof.
  unfold finite, B2R. rewrite FloatAxioms.add_spec. unfold SF64add.
  destruct (Prim2SF x) as [sx|sx| |sx mx ex]; try contradiction;
    destruct (Prim2SF y) as [sy|sy| |sy my ey]; try contradiction;
    intros _ _ Hr; cbn [SFadd].
  - destruct sx, sy; cbn [SF2R]; split; try exact I; ring.
  - cbn [SF2R]. split; [exact I|ring].
  - cbn [SF2R]. split; [exact I|ring].
  - set (ez := Z.min ex ey).
    set (S := (cond_Zopp sx (Z.pos (fst (shl_align mx ex ez)))
               + cond_Zopp sy (Z.pos (fst (shl_align my ey ez))))%Z).
    assert (HS : F2R S ez = SF2R (S754_finite sx mx ex) + SF2R (S754_finite sy my ey)).
    { unfold S. rewrite F2R_add, !aligned_value by (unfold ez; lia). reflexivity. }
    rewrite <- HS in Hr.
    destruct (binary_normalize_value S ez Hr) as (r & -> & Hv & Hf).
    rewrite Hv, HS. split; [|reflexivity].
    destruct r; auto.
Qed.

(** A difference that is representable is computed exactly. *)
Lemma sub_exact (x y : float) :
  finite x -> finite y -> representable (B2R x - B2R y) ->
  finite (x - y)%float /\ B2R (x - y)%float = B2R x - B2R y.
Proof.
  unfold finite, B2R. rewrite FloatAxioms.sub_spec. unfold SF64sub.
  destruct (Prim2SF x) as [sx|sx| |sx mx ex]; try contradiction;
    destruct (Prim2SF y) as [sy|sy| |sy my ey]; try contradiction;
    intros _ _ Hr; cbn [SFsub].
  - destruct sx, sy; cbn [SF2R]; split; try exact I; ring.
  - cbn [SF2R]. split; [exact I|].
    destruct sy; cbn [negb]; rewrite ?F2R_neg; ring.
  - cbn [SF2R]. split; [exact I|ring].
  - set (ez := Z.min ex ey).
    set (S := (cond_Zopp sx (Z.pos (fst (shl_align mx ex ez)))
               - cond_Zopp sy (Z.pos (fst (shl_align my ey ez))))%Z).
    assert (HS : F2R S ez = SF2R (S754_finite sx mx ex) - SF2R (S754_finite sy my ey)).
    { unfold S. rewrite F2R_sub, !aligned_value by (unfold ez; lia). reflexivity. }
    rewrite <- HS in Hr.
    destruct (binary_normalize_value S ez Hr) as (r & -> & Hv & Hf).
    rewrite Hv, HS. split; [|reflexivity].
    destruct r; auto.
Qed.

End ExactSums.

Section IntegralValues.

Local Open Scope R_scope.

Lemma F2R_IZR (z : Z) : F2R z 0 = IZR z.
Proof. unfold F2R. rewrite bpow_0. ring. Qed.

(** The bits of a finite number whose value is the integer [z]. *)
Lemma integral_bits (x : float) (z : Z) :
  finite x -> B2R x = IZR z ->
  match Prim2SF x with
  | S754_zero _ => z = 0%Z
  | S754_finite s m e =>
      (0 <= e)%Z /\ z = (signed s m * 2 ^ e)%Z
      \/ (e < 0)%Z /\ signed s m = (z * 2 ^ (- e))%Z
  | _ => False
  end.
Proof.
  unfold finite, B2R.
  destruct (Prim2SF x) as [s|s| |s m e]; try contradiction; intros _ Hv;
    cbn [SF2R] in Hv.
  - apply eq_IZR. symmetry. exact Hv.
  - fold (signed s m) in Hv. rewrite <- F2R_IZR in Hv.
    destruct (Z_le_gt_dec 0 e) as [He|He].
    + left. split; [assumption|].
      symmetry in Hv. apply F2R_eq_Z in Hv; [|assumption].
      rewrite Hv. f_equal. f_equal. lia.
    + right. split; [lia|].
      apply F2R_eq_Z in Hv; [|lia]. rewrite Hv. f_equal.
Qed.

Lemma to_integer_value (x : float) (z : Z) :
  finite x -> B2R x = IZR z -> to_integer x = Some z.
Proof.
  intros Hf Hv. pose proof (integral_bits x z Hf Hv) as Hb.
  unfold to_integer.
  destruct (Prim2SF x) as [s|s| |s m e]; try contradiction.
  - subst z. reflexivity.
  - destruct Hb as [[He Hz]|[He Hz]].
    + destruct (Z.leb_spec 0 e) as [_|]; [|lia].
      rewrite Z.shiftl_mul_pow2 by assumption. subst z. reflexivity.
    + destruct (Z.leb_spec 0 e) as [|_]; [lia|].
      assert (Hp : (0 < 2 ^ (- e))%Z) by (apply Z.pow_pos_nonneg; lia).
      assert (Hmod : (Z.land (Z.pos m) (Z.ones (- e)) = 0)%Z).
      { rewrite Z.land_ones by lia.
        replace (Z.pos m) with (Z.abs z * 2 ^ (- e))%Z.
        - apply Z.mod_mul. lia.
        - unfold signed in Hz. destruct s; nia. }
      rewrite Hmod. cbn [Z.eqb].
      rewrite Z.shiftl_div_pow2 by lia. rewrite Hz, Z.div_mul by lia.
      reflexivity.
Qed.

Lemma array_index_value (x : float) (n : nat) :
  finite x -> B2R x = IZR (Z.of_nat n) -> array_index x = Some n.
Proof.
  intros Hf Hv. unfold array_index. rewrite (to_integer_value x _ Hf Hv).
  destruct (Z.leb_spec 0 (Z.of_nat n)); [|lia].
  rewrite Nat2Z.id. reflexivity.
Qed.

Lemma iterations_value (x : float) (n : nat) :
  finite x -> B2R x = IZR (Z.of_nat n) -> iterations x = n.
Proof.
  intros Hf Hv. unfold iterations. rewrite (to_integer_value x _ Hf Hv).
  apply Nat2Z.id.
Qed.

Lemma ToInt16_value (x : float) (z : Z) :
  finite x -> B2R x = IZR z -> (-32768 <= z < 32768)%Z -> ToInt16 x = z.
Proof.
  intros Hf Hv Hz. pose proof (integral_bits x z Hf Hv) as Hb.
  unfold ToInt16.
  destruct (Prim2SF x) as [s|s| |s m e]; try contradiction; [lia|].
  assert (Ht : ((if s then - Z.shiftl (Z.pos m) e else Z.shiftl (Z.pos m) e)
                = z)%Z).
  { destruct Hb as [[He Hb]|[He Hb]].
    - rewrite Z.shiftl_mul_pow2 by assumption. unfold signed in Hb.
      destruct s; lia.
    - rewrite Z.shiftl_div_pow2 by lia.
      assert (Hp : (0 < 2 ^ (- e))%Z) by (apply Z.pow_pos_nonneg; lia).
      unfold signed in Hb. destruct s.
      + replace (Z.pos m) with (- z * 2 ^ (- e))%Z by lia.
        rewrite Z.div_mul by lia. lia.
      + rewrite Hb, Z.div_mul by lia. reflexivity. }
  rewrite Ht.
  destruct (Z_lt_le_dec z 0) as [Hneg|Hpos].
  - replace (z mod 65536)%Z with (z + 65536)%Z.
    + destruct (Z.leb_spec 32768 (z + 65536)); lia.
    + apply (Z.mod_unique_pos _ _ (-1)); lia.
  - rewrite Z.mod_small by lia.
    destruct (Z.leb_spec 32768 z); lia.
Qed.

(** [Math.floor]: the integer just below. *)
Lemma Math_floor_value (x : float) :
  finite x ->
  exists z : Z,
    finite (Math_floor x) /\ B2R (Math_floor x) = IZR z
    /\ IZR z <= B2R x < IZR z + 1.
Proof.
  intros Hf. unfold Math_floor.
  destruct (Prim2SF x) as [s|s| |s m e] eqn:Hx;
    try (unfold finite in Hf; rewrite Hx in Hf; contradiction).
  - exists 0%Z. split; [assumption|]. unfold B2R. rewrite Hx. cbn [SF2R].
    split; [reflexivity|lra].
  - destruct (Z.leb_spec 0 e) as [He|He].
    + exists (signed s m * 2 ^ e)%Z. split; [assumption|].
      assert (Hv : B2R x = IZR (signed s m * 2 ^ e)).
      { unfold B2R. rewrite Hx. cbn [SF2R]. fold (signed s m).
        rewrite <- F2R_IZR, F2R_shift by assumption. reflexivity. }
      rewrite Hv. split; [reflexivity|lra].
    + destruct (Prim2SF_bounds x s m e Hx) as [Hm _].
      set (k := (- e)%Z).
      assert (Hp : (0 < 2 ^ k)%Z) by (apply Z.pow_pos_nonneg; unfold k; lia).
      rewrite Z.shiftl_div_pow2 by lia. fold k.
      set (z := (signed s m / 2 ^ k)%Z).
      pose proof (Z.div_mod (signed s m) (2 ^ k) ltac:(lia)) as Hdm.
      pose proof (Z.mod_pos_bound (signed s m) (2 ^ k) Hp) as Hr.
      fold z in Hdm.
      assert (Hzb : (Z.abs z < 2 ^ 53)%Z).
      { unfold signed in *. destruct s; nia. }
      destruct (of_Z_value z Hzb) as [Hfz Hvz].
      exists z. split; [assumption|]. split; [assumption|].
      unfold B2R. rewrite Hx. cbn [SF2R]. fold (signed s m). unfold F2R.
      replace e with (- k)%Z by (unfold k; lia).
      rewrite bpow_opp, bpow_IZR by (unfold k; lia).
      assert (H2 : 0 < IZR (2 ^ k)) by (apply IZR_lt; assumption).
      assert (HR : IZR (signed s m)
                   = IZR (2 ^ k) * IZR z + IZR (signed s m mod 2 ^ k)).
      { rewrite <- mult_IZR, <- plus_IZR. f_equal. exact Hdm. }
      assert (Hr0 : 0 <= IZR (signed s m mod 2 ^ k)) by (apply IZR_le; lia).
      assert (Hr1 : IZR (signed s m mod 2 ^ k) < IZR (2 ^ k))
        by (apply IZR_lt; lia).
      rewrite HR. split.
      * apply Rmult_le_reg_r with (IZR (2 ^ k)); [assumption|].
        field_simplify; [|lra]. lra.
      * apply Rmult_lt_reg_r with (IZR (2 ^ k)); [assumption|].
        field_simplify; [|lra]. lra.
Qed.

Lemma IZR_floor_unique (z w : Z) : IZR z <= IZR w < IZR z + 1 -> z = w.
Proof.
  intros [Hlo Hhi]. apply le_IZR in Hlo.
  rewrite <- plus_IZR in Hhi. apply lt_IZR in Hhi. lia.
Qed.

Lemma Math_floor_integral (x : float) (z : Z) :
  finite x -> B2R x = IZR z ->
  finite (Math_floor x) /\ B2R (Math_floor x) = IZR z.
Proof.
  intros Hf Hv. destruct (Math_floor_value x Hf) as (w & Hfw & Hvw & Hb).
  rewrite Hv in Hb. apply IZR_floor_unique in Hb. subst w. auto.
Qed.

End IntegralValues.

(** ** The downsampling of [forwardAudio] *)

Section Downsample.

Import LiveAvatarForwarder.

Local Open Scope R_scope.

Lemma bpow_minus_1 : bpow (-1) = / 2.
Proof. change (-1)%Z with (- (1))%Z. rewrite bpow_opp, bpow_1. reflexivity. Qed.

Lemma two_value : finite 2%float /\ B2R 2%float = 2.
Proof. change 2%float with (of_Z 2). apply of_Z_value. reflexivity. Qed.

Lemma of_nat_value (n : nat) :
  (Z.of_nat n < 2 ^ 53)%Z -> finite (of_nat n) /\ B2R (of_nat n) = IZR (Z.of_nat n).
Proof. intros Hn. apply of_Z_value. lia. Qed.

(** Reading an element that is there. *)
Lemma Int16Array_get_value (a : list Z) (k : float) (i : nat) (z : Z) :
  finite k -> B2R k = IZR (Z.of_nat i) -> nth_error a i = Some z ->
  Int16Array_get a k = of_Z z.
Proof.
  intros Hf Hv Hz. unfold Int16Array_get.
  rewrite (array_index_value k i Hf Hv), Hz. reflexivity.
Qed.

Lemma ToInt16_of_Z (z : Z) : (-32768 <= z < 32768)%Z -> ToInt16 (of_Z z) = z.
Proof.
  intros Hz. destruct (of_Z_value z) as [Hf Hv]; [lia|].
  apply ToInt16_value; assumption.
Qed.

(** The number of turns of a loop bounded by [Math.floor(n / 2)]. *)
Lemma half_length_iterations (n : nat) :
  (Z.of_nat n < 2 ^ 53)%Z ->
  iterations (Math_floor (of_nat n / 2)%float) = (n / 2)%nat.
Proof.
  intros Hn.
  destruct (of_nat_value n Hn) as [Hfn Hvn]. destruct two_value as [Hf2 Hv2].
  destruct (div_exact (of_nat n) 2%float Hfn Hf2) as [Hfq Hvq].
  - rewrite Hv2. lra.
  - rewrite Hvn, Hv2. exists (Z.of_nat n), (-1)%Z.
    split; [|lia]. unfold F2R. rewrite bpow_minus_1. reflexivity.
  - destruct (Math_floor_value _ Hfq) as (z & Hfz & Hvz & Hb).
    rewrite Hvq, Hvn, Hv2 in Hb.
    assert (Hz : z = Z.of_nat (n / 2)).
    { rewrite Nat2Z.inj_div. change (Z.of_nat 2) with 2%Z.
      apply Z.div_unique with (r := (Z.of_nat n - 2 * z)%Z); [|lia].
      destruct Hb as [Hlo Hhi].
      assert (Hlo' : IZR (2 * z) <= IZR (Z.of_nat n)) by (rewrite mult_IZR; lra).
      assert (Hhi' : IZR (Z.of_nat n) < IZR (2 * z + 2))
        by (rewrite plus_IZR, mult_IZR; lra).
      apply le_IZR in Hlo'. apply lt_IZR in Hhi'. left. lia. }
    subst z. apply iterations_value; assumption.
Qed.

(** X11. [forwardAudio] halves every frame: for a frame of [n] 16-bit
    samples the loop writes [floor(n / 2)] samples, the samples number
    [0, 2, 4, ...] of the frame, and never reads outside the frame. *)
Theorem downsample_keeps_even_samples (inputData : list Z) :
  (Z.of_nat (length inputData) < 2 ^ 53)%Z ->
  Forall (fun z => (-32768 <= z < 32768)%Z) inputData ->
  downsample inputData
  = map (fun i => nth (2 * i) inputData 0%Z) (seq 0 (length inputData / 2)).
Proof.
  intros Hn Hrange. unfold downsample, for_range, length_of.
  rewrite half_length_iterations by assumption.
  apply map_ext_in. intros i Hi. apply in_seq in Hi.
  assert (Hlt : (2 * i < length inputData)%nat).
  { pose proof (Nat.Div0.mul_div_le (length inputData) 2). lia. }
  destruct (of_nat_value i) as [Hfi Hvi]; [lia|].
  destruct two_value as [Hf2 Hv2].
  destruct (mul_exact (of_nat i) 2%float Hfi Hf2) as [Hfm Hvm].
  { rewrite Hvi, Hv2, <- mult_IZR. apply representable_IZR. lia. }
  assert (Hvm' : B2R (of_nat i * 2)%float = IZR (Z.of_nat (2 * i))).
  { rewrite Hvm, Hvi, Hv2, <- mult_IZR. f_equal. lia. }
  destruct (nth_error inputData (2 * i)) as [z|] eqn:Hz;
    [|apply nth_error_None in Hz; lia].
  rewrite (Int16Array_get_value inputData _ (2 * i) z Hfm Hvm' Hz).
  rewrite (nth_error_nth _ _ _ Hz).
  apply ToInt16_of_Z.
  rewrite List.Forall_forall in Hrange. apply Hrange.
  eapply nth_error_In, Hz.
Qed.

End Downsample.


Section Comparisons.

Local Open Scope R_scope.

Lemma canonical_digits (m : positive) (e : Z) :
  valid_binary (S754_finite false m e) = true ->
  (-1074 < e)%Z -> (2 ^ 52 <= Z.pos m)%Z.
Proof.
  unfold SpecFloat.valid_binary, SpecFloat.bounded, SpecFloat.canonical_mantissa.
  rewrite andb_true_iff, Z.eqb_eq, fexp_eq, digits2_pos_log2.
  intros [Hcan _] He.
  assert (Hlog : Z.log2 (Z.pos m) = 52%Z) by lia.
  destruct (Z.log2_spec (Z.pos m)) as [Hlo _]; [lia|].
  rewrite Hlog in Hlo. exact Hlo.
Qed.

Lemma canonical_lt (m1 m2 : positive) (e1 e2 : Z) :
  valid_binary (S754_finite false m1 e1) = true ->
  valid_binary (S754_finite false m2 e2) = true ->
  (e1 < e2)%Z -> F2R (Z.pos m1) e1 < F2R (Z.pos m2) e2.
Proof.
  intros H1 H2 He.
  destruct (canonical_bounds m1 e1 H1) as [Hm1 He1].
  pose proof (canonical_digits m2 e2 H2 ltac:(lia)) as Hm2.
  unfold F2R.
  apply Rlt_le_trans with (bpow 53 * bpow e1).
  - apply Rmult_lt_compat_r; [apply bpow_pos|].
    rewrite bpow_IZR by lia. apply IZR_lt. exact Hm1.
  - apply Rle_trans with (bpow 52 * bpow e2).
    + rewrite <- !bpow_add. apply bpow_le. lia.
    + apply Rmult_le_compat_r; [apply Rlt_le, bpow_pos|].
      rewrite bpow_IZR by lia. apply IZR_le. exact Hm2.
Qed.

Lemma same_exponent_compare (m1 m2 : positive) (e : Z) :
  agrees (Pos.compare_cont Eq m1 m2) (F2R (Z.pos m1) e) (F2R (Z.pos m2) e).
Proof.
  change (Pos.compare_cont Eq m1 m2) with (Pos.compare m1 m2).
  pose proof (bpow_pos e) as He. unfold F2R.
  destruct (Pos.compare_spec m1 m2) as [->|H|H]; cbn [agrees].
  - reflexivity.
  - apply Rmult_lt_compat_r; [assumption|]. apply IZR_lt. lia.
  - apply Rmult_lt_compat_r; [assumption|]. apply IZR_lt. lia.
Qed.

Lemma valid_any_sign (s : bool) (m : positive) (e : Z) :
  valid_binary (S754_finite s m e) = true ->
  valid_binary (S754_finite false m e) = true.
Proof. intros H. exact H. Qed.

Lemma agrees_opp (c : comparison) (a b : R) :
  agrees c a b -> agrees (CompOpp c) (- a) (- b).
Proof. destruct c; cbn [agrees CompOpp]; lra. Qed.

(** The comparison of two finite numbers is the comparison of their values. *)
Lemma SFcompare_value (x y : float) :
  finite x -> finite y ->
  exists c : comparison,
    SFcompare (Prim2SF x) (Prim2SF y) = Some c /\ agrees c (B2R x) (B2R y).
Proof.
  unfold finite, B2R.
  pose proof (Prim2SF_valid x) as Vx. pose proof (Prim2SF_valid y) as Vy.
  destruct (Prim2SF x) as [sx|sx| |sx mx ex]; try contradiction;
    destruct (Prim2SF y) as [sy|sy| |sy my ey]; try contradiction;
    intros _ _; cbn [SFcompare SF2R].
  - exists Eq. split; [reflexivity|]. reflexivity.
  - pose proof (F2R_pos_pos my ey).
    destruct sy; eexists; (split; [reflexivity|]); cbn [agrees];
      rewrite ?F2R_neg; lra.
  - pose proof (F2R_pos_pos mx ex).
    destruct sx; eexists; (split; [reflexivity|]); cbn [agrees];
      rewrite ?F2R_neg; lra.
  - pose proof (F2R_pos_pos mx ex). pose proof (F2R_pos_pos my ey).
    apply valid_any_sign in Vx, Vy.
    destruct sx, sy; rewrite ?F2R_neg.
    + destruct (Z.compare_spec ex ey) as [->|He|He].
      * eexists. split; [reflexivity|].
        apply agrees_opp, same_exponent_compare.
      * exists Gt. split; [reflexivity|]. cbn [agrees].
        pose proof (canonical_lt mx my ex ey Vx Vy He). lra.
      * exists Lt. split; [reflexivity|]. cbn [agrees].
        pose proof (canonical_lt my mx ey ex Vy Vx He). lra.
    + exists Lt. split; [reflexivity|]. cbn [agrees]. lra.
    + exists Gt. split; [reflexivity|]. cbn [agrees]. lra.
    + destruct (Z.compare_spec ex ey) as [->|He|He].
      * eexists. split; [reflexivity|]. apply same_exponent_compare.
      * exists Lt. split; [reflexivity|]. cbn [agrees].
        apply canonical_lt; assumption.
      * exists Gt. split; [reflexivity|]. cbn [agrees].
        apply canonical_lt; assumption.
Qed.

Lemma ltb_value (x y : float) :
  finite x -> finite y -> ((x <? y)%float = true <-> B2R x < B2R y).
Proof.
  intros Hx Hy. rewrite FloatAxioms.ltb_spec. unfold SFltb.
  destruct (SFcompare_value x y Hx Hy) as (c & -> & Hc).
  destruct c; cbn [agrees] in Hc; split; intros H; try discriminate;
    try reflexivity; lra.
Qed.

Lemma finite_not_nan (x : float) : finite x -> is_nan x = false.
Proof.
  intros Hx. unfold is_nan. rewrite FloatAxioms.eqb_spec. unfold SFeqb.
  destruct (SFcompare_value x x Hx Hx) as (c & -> & Hc).
  destruct c; cbn [agrees] in Hc; [reflexivity|lra|lra].
Qed.

(** [Math.min] of two finite numbers has the smaller value. *)
Lemma Math_min_value (a b : float) :
  finite a -> finite b ->
  finite (Math_min a b) /\ B2R (Math_min a b) = Rmin (B2R a) (B2R b).
Proof.
  intros Ha Hb. unfold Math_min.
  rewrite (finite_not_nan a Ha), (finite_not_nan b Hb). cbn [orb].
  pose proof (ltb_value a b Ha Hb) as Hab. pose proof (ltb_value b a Hb Ha) as Hba.
  destruct (a <? b)%float.
  - split; [assumption|]. rewrite Rmin_left; [reflexivity|].
    apply Rlt_le, Hab. reflexivity.
  - destruct (b <? a)%float.
    + split; [assumption|]. rewrite Rmin_right; [reflexivity|].
      apply Rlt_le, Hba. reflexivity.
    + assert (Heq : B2R a = B2R b).
      { destruct (Rtotal_order (B2R a) (B2R b)) as [H|[H|H]];
          [apply Hab in H; discriminate|assumption|apply Hba in H; discriminate]. }
      destruct (get_sign a); (split; [assumption|]);
        rewrite Heq, Rmin_left; lra.
Qed.

End Comparisons.

Section IntegralRounding.

Local Open Scope R_scope.

(** [Math.round] leaves an integral number alone. *)
Lemma Math_round_integral (x : float) (z : Z) :
  finite x -> B2R x = IZR z ->
  finite (Math_round x) /\ B2R (Math_round x) = IZR z.
Proof.
  intros Hf Hv. pose proof (integral_bits x z Hf Hv) as Hb.
  unfold Math_round.
  destruct (Prim2SF x) as [s|s| |s m e] eqn:Hx; try contradiction.
  - auto.
  - destruct Hb as [[He Hz]|[He Hz]].
    + destruct (Z.leb_spec 0 e) as [_|]; [auto|lia].
    + destruct (Z.leb_spec 0 e) as [|_]; [lia|].
      destruct (Prim2SF_bounds x s m e Hx) as [Hm _].
      assert (Hp : (0 < 2 ^ (- e - 1))%Z) by (apply Z.pow_pos_nonneg; lia).
      assert (Hpow : (2 ^ (- e) = 2 * 2 ^ (- e - 1))%Z).
      { rewrite <- Z.pow_succ_r by lia. f_equal. lia. }
      assert (Hshift : Z.shiftl (signed s m + 2 ^ (- e - 1)) e = z).
      { rewrite Z.shiftl_div_pow2 by lia. rewrite Hz.
        symmetry. apply (Z.div_unique_pos _ _ _ (2 ^ (- e - 1))); lia. }
      rewrite Hshift.
      assert (Hz0 : z <> 0%Z).
      { intros ->. unfold signed in Hz. destruct s; lia. }
      destruct (Z.eqb_spec z 0) as [|_]; [contradiction|].
      apply of_Z_value.
      unfold signed in Hz. destruct s; nia.
Qed.

Lemma ToIndex_value (x : float) (n : nat) :
  finite x -> B2R x = IZR (Z.of_nat n) -> (Z.of_nat n < 2 ^ 53)%Z ->
  ToIndex x = Some n.
Proof.
  intros Hf Hv Hn. pose proof (integral_bits x _ Hf Hv) as Hb.
  unfold ToIndex.
  destruct (Prim2SF x) as [s|s| |s m e]; try contradiction.
  - f_equal. lia.
  - assert (Ht : Z.shiftl (Z.pos m) e = Z.of_nat n /\ s = false).
    { destruct Hb as [[He Hb]|[He Hb]].
      - rewrite Z.shiftl_mul_pow2 by assumption.
        assert (0 < 2 ^ e)%Z by (apply Z.pow_pos_nonneg; lia).
        unfold signed in Hb. destruct s; [nia|]. split; [lia|reflexivity].
      - rewrite Z.shiftl_div_pow2 by lia.
        assert (0 < 2 ^ (- e))%Z by (apply Z.pow_pos_nonneg; lia).
        unfold signed in Hb. destruct s; [nia|].
        rewrite Hb, Z.div_mul by lia. split; reflexivity. }
    destruct Ht as [-> ->].
    destruct (Z.leb_spec (Z.of_nat n) (2 ^ 53 - 1)); [|lia].
    rewrite Nat2Z.id. reflexivity.
Qed.

Lemma one_value : finite 1%float /\ B2R 1%float = 1.
Proof. change 1%float with (of_Z 1). apply of_Z_value. reflexivity. Qed.

End IntegralRounding.

(** ** [AudioResampler] from 48 kHz to 24 kHz *)

Section HalfRate.

Local Open Scope R_scope.

(** One sample of [push] when the ratio is 2: the interpolation has
    nothing to interpolate. *)
Lemma push_sample_at_ratio_2 (inputSamples : list Z) (i : nat) :
  (Z.of_nat (length inputSamples) < 2 ^ 53)%Z ->
  Forall (fun z => (-32768 <= z < 32768)%Z) inputSamples ->
  (2 * i < length inputSamples)%nat ->
  let inputIndex := (of_nat i * 2)%float in
  let index0 := Math_floor inputIndex in
  let index1 :=
    Math_min (index0 + 1)%float (length_of inputSamples - 1)%float in
  let fraction := (inputIndex - index0)%float in
  ToInt16 (Math_round
    (Int16Array_get inputSamples index0 * (1 - fraction)
     + Int16Array_get inputSamples index1 * fraction)%float)
  = nth (2 * i) inputSamples 0%Z.
Proof.
  intros Hn Hrange Hlt. cbn zeta.
  set (n := length inputSamples) in *.
  rewrite List.Forall_forall in Hrange.
  destruct (of_nat_value i) as [Hfi Hvi]; [lia|].
  destruct two_value as [Hf2 Hv2]. destruct one_value as [Hf1 Hv1].
  destruct (of_nat_value n Hn) as [Hfn Hvn].
  (* inputIndex = 2 i *)
  destruct (mul_exact (of_nat i) 2%float Hfi Hf2) as [Hfm Hvm].
  { rewrite Hvi, Hv2, <- mult_IZR. apply representable_IZR. lia. }
  assert (Hvm' : B2R (of_nat i * 2)%float = IZR (Z.of_nat (2 * i))).
  { rewrite Hvm, Hvi, Hv2, <- mult_IZR. f_equal. lia. }
  set (inputIndex := (of_nat i * 2)%float) in *.
  (* index0 = 2 i *)
  destruct (Math_floor_integral inputIndex _ Hfm Hvm') as [Hf0 Hv0].
  set (index0 := Math_floor inputIndex) in *.
  (* index1 = min (2 i + 1) (n - 1) *)
  destruct (add_exact index0 1%float Hf0 Hf1) as [Hfs Hvs].
  { rewrite Hv0, Hv1, <- plus_IZR. apply representable_IZR. lia. }
  destruct (sub_exact (of_nat n) 1%float Hfn Hf1) as [Hfl Hvl].
  { rewrite Hvn, Hv1, <- minus_IZR. apply representable_IZR. lia. }
  destruct (Math_min_value _ _ Hfs Hfl) as [Hf1' Hv1'].
  fold n in Hf1', Hv1'. unfold length_of. fold n.
  set (index1 := Math_min (index0 + 1)%float (of_nat n - 1)%float) in *.
  assert (Hidx1 : exists j : nat, (j < n)%nat /\ B2R index1 = IZR (Z.of_nat j)).
  { rewrite Hv1', Hvs, Hvl, Hv0, Hvn, Hv1, <- plus_IZR, <- minus_IZR.
    destruct (Rle_dec (IZR (Z.of_nat (2 * i) + 1)) (IZR (Z.of_nat n - 1)))
      as [Hle|Hgt].
    - rewrite Rmin_left by assumption. apply le_IZR in Hle.
      exists (2 * i + 1)%nat. split; [lia|]. f_equal. lia.
    - rewrite Rmin_right by lra.
      exists (n - 1)%nat. split; [lia|]. f_equal. lia. }
  destruct Hidx1 as (j & Hj & Hvj).
  (* fraction = 0 *)
  destruct (sub_exact inputIndex index0 Hfm Hf0) as [Hff Hvf].
  { rewrite Hvm', Hv0, <- minus_IZR. apply representable_IZR. lia. }
  assert (Hvf' : B2R (inputIndex - index0)%float = 0) by (rewrite Hvf, Hvm', Hv0; lra).
  set (fraction := (inputIndex - index0)%float) in *.
  destruct (sub_exact 1%float fraction Hf1 Hff) as [Hfc Hvc].
  { rewrite Hv1, Hvf'. replace (1 - 0) with (IZR 1) by lra.
    apply representable_IZR. lia. }
  (* the two samples read *)
  destruct (nth_error inputSamples (2 * i)) as [z0|] eqn:Hz0;
    [|apply nth_error_None in Hz0; fold n in Hz0; lia].
  destruct (nth_error inputSamples j) as [z1|] eqn:Hz1;
    [|apply nth_error_None in Hz1; fold n in Hz1; lia].
  assert (Hr0 : (-32768 <= z0 < 32768)%Z) by (eapply Hrange, nth_error_In, Hz0).
  assert (Hr1 : (-32768 <= z1 < 32768)%Z) by (eapply Hrange, nth_error_In, Hz1).
  rewrite (Int16Array_get_value inputSamples index0 (2 * i) z0 Hf0 Hv0 Hz0).
  rewrite (Int16Array_get_value inputSamples index1 j z1 Hf1' Hvj Hz1).
  destruct (of_Z_value z0) as [Hfz0 Hvz0]; [lia|].
  destruct (of_Z_value z1) as [Hfz1 Hvz1]; [lia|].
  destruct (mul_exact (of_Z z0) (1 - fraction)%float Hfz0 Hfc) as [Hfa Hva].
  { rewrite Hvz0, Hvc, Hv1, Hvf'. replace (IZR z0 * (1 - 0)) with (IZR z0) by lra.
    apply representable_IZR. lia. }
  destruct (mul_exact (of_Z z1) fraction Hfz1 Hff) as [Hfb Hvb].
  { rewrite Hvz1, Hvf'. replace (IZR z1 * 0) with (IZR 0) by lra.
    apply representable_IZR. lia. }
  destruct (add_exact _ _ Hfa Hfb) as [Hfsum Hvsum].
  { rewrite Hva, Hvb, Hvz0, Hvz1, Hvc, Hv1, Hvf'.
    replace (IZR z0 * (1 - 0) + IZR z1 * 0) with (IZR z0) by lra.
    apply representable_IZR. lia. }
  assert (Hvsum' : B2R (of_Z z0 * (1 - fraction) + of_Z z1 * fraction)%float
                   = IZR z0).
  { rewrite Hvsum, Hva, Hvb, Hvz0, Hvz1, Hvc, Hv1, Hvf'. lra. }
  destruct (Math_round_integral _ z0 Hfsum Hvsum') as [Hfr Hvr].
  rewrite (ToInt16_value _ z0 Hfr Hvr Hr0).
  symmetry. apply nth_error_nth. exact Hz0.
Qed.

End HalfRate.

Section HalfRateFrames.

Import LiveAvatarAudioOutput.

Variable base64 : list Byte.byte -> string.

Local Open Scope R_scope.

(** [push] of the resampler that [start] installs, on a frame that is not
    at 24 kHz already. *)
Lemma push_48000_to_24000 (frame : AudioFrame) :
  (Z.of_nat (length (data frame)) < 2 ^ 53)%Z ->
  Forall (fun z => (-32768 <= z < 32768)%Z) (data frame) ->
  (sampleRate frame =? SAMPLE_RATE)%float = false ->
  exists resampled : AudioFrame,
    push (new_AudioResampler 48000 SAMPLE_RATE) frame = Some [resampled]
    /\ data resampled = LiveAvatarForwarder.downsample (data frame)
    /\ sampleRate resampled = SAMPLE_RATE
    /\ channels resampled = channels frame
    /\ owns_buffer resampled.
Proof.
  intros Hn Hrange Hrate. unfold push.
  change (outputRate (new_AudioResampler 48000 SAMPLE_RATE)) with SAMPLE_RATE.
  change (ratio (new_AudioResampler 48000 SAMPLE_RATE)) with 2%float.
  rewrite Hrate.
  set (n := length (data frame)) in *.
  pose proof (half_length_iterations n Hn) as Hiter.
  (* the length of the new array *)
  destruct (of_nat_value n Hn) as [Hfn Hvn]. destruct two_value as [Hf2 Hv2].
  destruct (div_exact (of_nat n) 2%float Hfn Hf2) as [Hfq Hvq].
  { rewrite Hv2. lra. }
  { rewrite Hvn, Hv2. exists (Z.of_nat n), (-1)%Z.
    split; [|lia]. unfold F2R. rewrite bpow_minus_1. reflexivity. }
  destruct (Math_floor_value _ Hfq) as (z & Hfz & Hvz & Hb).
  assert (Hz : z = Z.of_nat (iterations (Math_floor (of_nat n / 2)%float))).
  { unfold iterations. rewrite (to_integer_value _ z Hfz Hvz).
    rewrite Z2Nat.id; [reflexivity|].
    rewrite Hvq, Hvn, Hv2 in Hb. destruct Hb as [_ Hhi].
    assert (H0 : 0 <= IZR (Z.of_nat n)) by (apply IZR_le; lia).
    assert (Hlt : IZR (-1) < IZR z) by (rewrite <- (Rplus_0_r (IZR (-1))); lra).
    apply lt_IZR in Hlt. lia. }
  rewrite Hiter in Hz. subst z.
  unfold length_of. fold n.
  rewrite (ToIndex_value _ (n / 2) Hfz Hvz).
  2:{ pose proof (Nat.Div0.div_le_upper_bound n 2 n ltac:(lia)). lia. }
  eexists. split; [reflexivity|].
  unfold owns_buffer. cbn [data data_buffer sampleRate channels].
  split; [|split; [|split]; reflexivity].
  unfold LiveAvatarForwarder.downsample, for_range, length_of. fold n.
  rewrite Hiter. apply map_ext_in. intros i Hi. apply in_seq in Hi.
  assert (Hlt : (2 * i < n)%nat).
  { pose proof (Nat.Div0.mul_div_le n 2). lia. }
  pose proof (push_sample_at_ratio_2 (data frame) i Hn Hrange Hlt) as Hs.
  cbn zeta in Hs. unfold length_of in Hs. fold n in Hs. rewrite Hs. clear Hs.
  (* the same sample, the way [forwardAudio] reads it *)
  destruct (of_nat_value i) as [Hfi Hvi]; [lia|].
  destruct (mul_exact (of_nat i) 2%float Hfi Hf2) as [Hfm Hvm].
  { rewrite Hvi, Hv2, <- mult_IZR. apply representable_IZR. lia. }
  assert (Hvm' : B2R (of_nat i * 2)%float = IZR (Z.of_nat (2 * i))).
  { rewrite Hvm, Hvi, Hv2, <- mult_IZR. f_equal. lia. }
  destruct (nth_error (data frame) (2 * i)) as [z|] eqn:Hz;
    [|apply nth_error_None in Hz; fold n in Hz; lia].
  rewrite (Int16Array_get_value (data frame) _ (2 * i) z Hfm Hvm' Hz).
  rewrite (nth_error_nth _ _ _ Hz).
  symmetry. apply ToInt16_of_Z.
  rewrite List.Forall_forall in Hrange. apply Hrange.
  eapply nth_error_In, Hz.
Qed.

(** X12. With the resampler that [start] installs (48 kHz to 24 kHz),
    [captureFrame] sends for a frame of 16-bit samples that is not at
    24 kHz exactly one [agent.speak] message, under the current event id,
    and its audio is byte for byte what [forwardAudio] sends for the same
    frame: the even-numbered samples. The linear interpolation of
    [AudioResampler] changes nothing at this ratio. *)
Theorem captureFrame_halves_like_forwardAudio (frame : AudioFrame) (st : state) :
  connected st = true ->
  audioResampler st = Some (new_AudioResampler 48000 SAMPLE_RATE) ->
  (sampleRate frame =? SAMPLE_RATE)%float = false ->
  (Z.of_nat (length (data frame)) < 2 ^ 53)%Z ->
  Forall (fun z => (-32768 <= z < 32768)%Z) (data frame) ->
  captureFrame base64 frame st
  = ws_send
      (Message "agent.speak" (eventId st)
         (Some (base64 (buffer_bytes
                          (LiveAvatarForwarder.downsample (data frame))))))
      st.
Proof.
  intros Hcon Hres Hrate Hn Hrange. unfold captureFrame.
  rewrite Hcon, Hres. cbn [negb].
  destruct (push_48000_to_24000 frame Hn Hrange Hrate)
    as (resampled & -> & Hdata & _ & _ & Hown).
  cbn [fold_left]. unfold convertToPCM16. rewrite Hown, Hdata. reflexivity.
Qed.

End HalfRateFrames.

(** ** The PCM bytes *)

Section PCM.

Local Open Scope Z_scope.

Lemma byte_of_Z_value (z : Z) : Z.of_N (Byte.to_N (byte_of_Z z)) = z mod 256.
Proof.
  unfold byte_of_Z.
  pose proof (Z.mod_pos_bound z 256 ltac:(lia)) as Hb.
  destruct (Byte.of_N (Z.to_N (z mod 256))) as [b|] eqn:Hof.
  - apply Byte.to_of_N in Hof. rewrite Hof. lia.
  - apply Byte.of_N_None_iff in Hof. lia.
Qed.

Lemma int16_of_bytes_int16_bytes (z : Z) :
  -32768 <= z < 32768 ->
  int16_of_bytes (byte_of_Z z) (byte_of_Z (z / 256)) = z.
Proof.
  intros Hz. unfold int16_of_bytes. rewrite !byte_of_Z_value.
  pose proof (Z.div_mod z 256 ltac:(lia)) as Hdm.
  pose proof (Z.mod_pos_bound z 256 ltac:(lia)) as Hlo.
  pose proof (Z.div_mod (z / 256) 256 ltac:(lia)) as Hdm2.
  pose proof (Z.mod_pos_bound (z / 256) 256 ltac:(lia)) as Hhi.
  destruct (Z.leb_spec 32768 (z mod 256 + 256 * ((z / 256) mod 256))); lia.
Qed.

Lemma s16le_samples_buffer_bytes (a : list Z) :
  Forall (fun z => -32768 <= z < 32768) a ->
  s16le_samples (buffer_bytes a) = a.
Proof.
  intros Hrange. unfold buffer_bytes.
  induction a as [|z a IH]; [reflexivity|].
  apply Forall_cons_1 in Hrange. destruct Hrange as [Hz Hrange].
  cbn [flat_map int16_bytes app s16le_samples].
  rewrite int16_of_bytes_int16_bytes by assumption.
  rewrite IH by assumption. reflexivity.
Qed.

(** X13. For a frame whose array owns its buffer (it is not a view on a
    part of a larger one), [convertToPCM16] yields two bytes per sample,
    and read back as signed 16-bit little-endian PCM (what the avatar
    platform expects, and what [ffplay -f s16le] plays) the bytes are the
    samples of the frame again: the conversion loses and alters nothing. *)
Theorem convertToPCM16_is_s16le (frame : AudioFrame) :
  owns_buffer frame ->
  Forall (fun z => -32768 <= z < 32768) (data frame) ->
  length (LiveAvatarAudioOutput.convertToPCM16 frame)
  = (2 * length (data frame))%nat
  /\ s16le_samples (LiveAvatarAudioOutput.convertToPCM16 frame) = data frame.
Proof.
  intros Hown Hrange. unfold LiveAvatarAudioOutput.convertToPCM16.
  rewrite Hown. split; [apply length_buffer_bytes|].
  apply s16le_samples_buffer_bytes, Hrange.
Qed.

(** For a frame whose array is a view, [convertToPCM16] yields the bytes
    of the whole buffer: here the array is [whole.subarray(2, 4)] of six
    samples, and the twelve bytes read back as all six. *)
Example convertToPCM16_of_subarray :
  let whole := [1; 2; 3; 4; 5; 6] in
  let frame := {| data := [3; 4]; data_buffer := buffer_bytes whole;
                  sampleRate := 24000; channels := 1;
                  samplesPerChannel := 2 |} in
  view_at 4 frame
  /\ length (LiveAvatarAudioOutput.convertToPCM16 frame) = 12%nat
  /\ s16le_samples (LiveAvatarAudioOutput.convertToPCM16 frame) = whole.
Proof. vm_compute. repeat split. Qed.

End PCM.

(** ** Instances *)

Lemma ttsNode_one_event_id_no_end_witness :
  let m := Message "agent.speak_started" "evt" None in
  In m (TtsNode.ttsNode (fun _ => "b64"%string) (fun n => (n <? 4)%nat)
          "evt" true [] true)
  /\ (event_id m = "evt"
      /\ (type m = "agent.speak_started" \/ type m = "agent.speak")
      /\ type m <> "agent.speak_end").
Proof.
  split; [left; reflexivity|].
  apply (ttsNode_one_event_id_no_end (fun _ => "b64"%string)
           (fun n => (n <? 4)%nat) "evt" true [] true).
  left. reflexivity.
Defined.

Lemma ttsNode_blocks_of_2400_witness :
  let reads := [(Some [1; 2; 3]%Z, true); (None, true); (Some [4]%Z, true)] in
  Forall (fun read : option (list Z) * bool => snd read = true) reads
  /\ Forall (TtsNode.spreads (fun n => (n <? 4)%nat)) reads
  /\ TtsNode.ttsNode (fun _ => "b64"%string) (fun n => (n <? 4)%nat)
       "evt" true reads true
     = Message "agent.speak_started" "evt" None
       :: map (fun k => TtsNode.speak_resampled (fun _ => "b64"%string) "evt"
                          (firstn 2400
                             (skipn (2400 * k) (TtsNode.samples_of reads))))
            (seq 0 ((length (TtsNode.samples_of reads) + 2399) / 2400)).
Proof.
  split; [repeat constructor|]. split; [repeat constructor|].
  apply (ttsNode_blocks_of_2400 (fun _ => "b64"%string)
           (fun n => (n <? 4)%nat) "evt").
  - repeat constructor.
  - repeat constructor.
Defined.

Lemma full_chunk_is_5224_bytes_witness :
  length (repeat 0%float 2400) = 2400%nat
  /\ (length (resample22To24 (repeat 0%float 2400)) = 2612%nat
      /\ length (buffer_bytes
                   (Int16Array_from (resample22To24 (repeat 0%float 2400))))
         = 5224%nat).
Proof.
  split; [apply repeat_length|].
  apply (full_chunk_is_5224_bytes (repeat 0%float 2400)).
  apply repeat_length.
Defined.

Lemma audio_output_keeps_utterances_apart_witness :
  let st := LiveAvatarAudioOutput.State (Some "wss://avatar"%string)
              (Some "wss://avatar"%string) true "evt_1" None [] in
  let ops := [LiveAvatarAudioOutput.CaptureFrame
                {| data := [1; -2]%Z;
                   data_buffer := buffer_bytes [1; -2]%Z;
                   sampleRate := 24000; channels := 1;
                   samplesPerChannel := 2 |};
              LiveAvatarAudioOutput.Flush "evt_2"] in
  LiveAvatarAudioOutput.sent st = []
  /\ (same_utterance
        (LiveAvatarAudioOutput.sent
           (LiveAvatarAudioOutput.run (fun _ => "b64"%string) st ops))
      /\ continues_with
           (LiveAvatarAudioOutput.eventId
              (LiveAvatarAudioOutput.run (fun _ => "b64"%string) st ops))
           (LiveAvatarAudioOutput.sent
              (LiveAvatarAudioOutput.run (fun _ => "b64"%string) st ops))).
Proof.
  split; [reflexivity|].
  apply (audio_output_keeps_utterances_apart (fun _ => "b64"%string)).
  reflexivity.
Defined.

Lemma audio_output_silent_after_stop_witness :
  let st := LiveAvatarAudioOutput.State (Some "wss://avatar"%string)
              (Some "wss://avatar"%string) true "evt_1" None [] in
  let ops := [LiveAvatarAudioOutput.CaptureFrame
                {| data := [1; -2]%Z;
                   data_buffer := buffer_bytes [1; -2]%Z;
                   sampleRate := 24000; channels := 1;
                   samplesPerChannel := 2 |};
              LiveAvatarAudioOutput.Flush "evt_2"] in
  Forall (fun o => o <> LiveAvatarAudioOutput.ConnectWebSocket) ops
  /\ LiveAvatarAudioOutput.sent
       (LiveAvatarAudioOutput.run (fun _ => "b64"%string)
          (LiveAvatarAudioOutput.stop st) ops)
     = LiveAvatarAudioOutput.sent st.
Proof.
  split; [repeat constructor; discriminate|].
  apply (audio_output_silent_after_stop (fun _ => "b64"%string)).
  repeat constructor; discriminate.
Defined.

Lemma forwarder_keeps_utterances_apart_witness :
  let st := LiveAvatarForwarder.State (Some "wss://avatar"%string)
              (Some "wss://avatar"%string) true "evt_1" [] in
  let ops := [LiveAvatarForwarder.ForwardFrame
                {| data := [1; -2; 3; -4]%Z;
                   data_buffer := buffer_bytes [1; -2; 3; -4]%Z;
                   sampleRate := 48000; channels := 1;
                   samplesPerChannel := 4 |};
              LiveAvatarForwarder.OnSpeechEnd "evt_2"] in
  LiveAvatarForwarder.sent st = []
  /\ (same_utterance
        (LiveAvatarForwarder.sent
           (LiveAvatarForwarder.run (fun _ => "b64"%string) st ops))
      /\ continues_with
           (LiveAvatarForwarder.eventId
              (LiveAvatarForwarder.run (fun _ => "b64"%string) st ops))
           (LiveAvatarForwarder.sent
              (LiveAvatarForwarder.run (fun _ => "b64"%string) st ops))).
Proof.
  split; [reflexivity|].
  apply (forwarder_keeps_utterances_apart (fun _ => "b64"%string)).
  reflexivity.
Defined.

Lemma forwarder_drops_everything_while_disconnected_witness :
  let st := LiveAvatarForwarder.State (Some "wss://avatar"%string)
              (Some "wss://avatar"%string) false "evt_1" [] in
  let ops := [LiveAvatarForwarder.ForwardFrame
                {| data := [1; -2; 3; -4]%Z;
                   data_buffer := buffer_bytes [1; -2; 3; -4]%Z;
                   sampleRate := 48000; channels := 1;
                   samplesPerChannel := 4 |};
              LiveAvatarForwarder.OnSpeechEnd "evt_2"] in
  LiveAvatarForwarder.isConnected st = false
  /\ Forall (fun o => o <> LiveAvatarForwarder.OnOpen) ops
  /\ (LiveAvatarForwarder.sent
        (LiveAvatarForwarder.run (fun _ => "b64"%string) st ops)
      = LiveAvatarForwarder.sent st
      /\ LiveAvatarForwarder.eventId
           (LiveAvatarForwarder.run (fun _ => "b64"%string) st ops)
         = LiveAvatarForwarder.eventId st).
Proof.
  split; [reflexivity|].
  split; [repeat constructor; discriminate|].
  apply (forwarder_drops_everything_while_disconnected (fun _ => "b64"%string)).
  - reflexivity.
  - repeat constructor; discriminate.
Defined.

Lemma downsample_keeps_even_samples_witness :
  let inputData := [10; -20; 30; -40; 50]%Z in
  (Z.of_nat (length inputData) < 2 ^ 53)%Z
  /\ Forall (fun z => (-32768 <= z < 32768)%Z) inputData
  /\ LiveAvatarForwarder.downsample inputData
     = map (fun i => nth (2 * i) inputData 0%Z) (seq 0 (length inputData / 2)).
Proof.
  split; [reflexivity|].
  split; [repeat constructor; lia|].
  apply (downsample_keeps_even_samples [10; -20; 30; -40; 50]%Z).
  - reflexivity.
  - repeat constructor; lia.
Defined.

Lemma captureFrame_halves_like_forwardAudio_witness :
  let frame := {| data := [10; -20; 30; -40; 50]%Z;
                  data_buffer := buffer_bytes [10; -20; 30; -40; 50]%Z;
                  sampleRate := 48000; channels := 1;
                  samplesPerChannel := 5 |} in
  let st := LiveAvatarAudioOutput.State (Some "wss://avatar"%string)
              (Some "wss://avatar"%string) true "evt_1"
              (Some (new_AudioResampler 48000 LiveAvatarAudioOutput.SAMPLE_RATE))
              [] in
  LiveAvatarAudioOutput.connected st = true
  /\ LiveAvatarAudioOutput.audioResampler st
     = Some (new_AudioResampler 48000 LiveAvatarAudioOutput.SAMPLE_RATE)
  /\ (sampleRate frame =? LiveAvatarAudioOutput.SAMPLE_RATE)%float = false
  /\ (Z.of_nat (length (data frame)) < 2 ^ 53)%Z
  /\ Forall (fun z => (-32768 <= z < 32768)%Z) (data frame)
  /\ LiveAvatarAudioOutput.captureFrame (fun _ => "b64"%string) frame st
     = LiveAvatarAudioOutput.ws_send
         (Message "agent.speak" (LiveAvatarAudioOutput.eventId st)
            (Some ((fun _ => "b64"%string)
                     (buffer_bytes
                        (LiveAvatarForwarder.downsample (data frame))))))
         st.
Proof.
  split; [reflexivity|]. split; [reflexivity|]. split; [reflexivity|].
  split; [reflexivity|]. split; [repeat constructor; lia|].
  apply (captureFrame_halves_like_forwardAudio (fun _ => "b64"%string)).
  - reflexivity.
  - reflexivity.
  - reflexivity.
  - reflexivity.
  - repeat constructor; lia.
Defined.

Lemma convertToPCM16_is_s16le_witness :
  let frame := {| data := [10; -20; 32767; -32768]%Z;
                  data_buffer := buffer_bytes [10; -20; 32767; -32768]%Z;
                  sampleRate := 24000; channels := 1;
                  samplesPerChannel := 4 |} in
  owns_buffer frame
  /\ Forall (fun z => (-32768 <= z < 32768)%Z) (data frame)
  /\ (length (LiveAvatarAudioOutput.convertToPCM16 frame)
      = (2 * length (data frame))%nat
      /\ s16le_samples (LiveAvatarAudioOutput.convertToPCM16 frame)
         = data frame).
Proof.
  split; [reflexivity|]. split; [repeat constructor; lia|].
  apply (convertToPCM16_is_s16le
           {| data := [10; -20; 32767; -32768]%Z;
              data_buffer := buffer_bytes [10; -20; 32767; -32768]%Z;
              sampleRate := 24000; channels := 1;
              samplesPerChannel := 4 |}).
  - reflexivity.
  - repeat constructor; lia.
Defined.
